(** * DB Schema Explorer: catalog reader, DDL synthesis, cache and sync

    A shallow embedding of the TypeScript sources of the schema explorer
    extension:

    - [src/lib/pg-schema.ts]   the seven catalog queries and [fetchSchemaData];
    - [src/lib/cache.ts]       [readSchemaCache] and [writeSchemaCache];
    - the sync command         the asynchronous block of [Command] that
                               connects, reads, builds and writes the cache;
    - [src/lib/exclusion.ts]   [isTableExcluded] and [filterTables];
    - [src/lib/ddl-builder.ts] [buildSchemaDdl], which is not among the
                               sources and is modelled from section 4.2 of
                               the design document.

    SQL statements are embedded as list expressions over the catalog
    relations they read: FROM is a list, JOIN .. ON a filtered product,
    WHERE a filter, SELECT a map and ORDER BY a sort on the listed keys.
    Promises are embedded by their outcome (fulfilled or rejected). *)

From Stdlib Require Import ZArith QArith Qcanon String Ascii List Floats.
From stdpp Require Import base decidable option numbers strings pretty sorting gmap list.

Open Scope Z_scope.
Open Scope string_scope.

(** ** Three-way comparisons and the orders they induce *)

Class Cmp (K : Type) := cmp : K → K → comparison.
Global Hint Mode Cmp ! : typeclass_instances.

Class CmpLaws (K : Type) `{Cmp K} := {
  cmp_antisym (x y : K) : cmp y x = CompOpp (cmp x y);
  cmp_lt_trans (x y z : K) : cmp x y = Lt → cmp y z = Lt → cmp x z = Lt;
  cmp_eq_l (x y z : K) : cmp x y = Eq → cmp x z = cmp y z
}.
Global Hint Mode CmpLaws ! - : typeclass_instances.

(** [cmp x y = Eq] only for identical keys. *)
Class CmpLeibniz (K : Type) `{Cmp K} :=
  cmp_eq_leibniz (x y : K) : cmp x y = Eq → x = y.
Global Hint Mode CmpLeibniz ! - : typeclass_instances.

Global Instance string_cmp : Cmp string := String.compare.
Global Instance Z_cmp : Cmp Z := Z.compare.
Global Instance Qc_cmp : Cmp Qc := Qccompare.

(** ORDER BY k1, k2: the first key decides, the second breaks ties. *)
Definition lex (c1 c2 : comparison) : comparison :=
  match c1 with Eq => c2 | _ => c1 end.

Global Instance prod_cmp {A B} `{Cmp A, Cmp B} : Cmp (A * B) :=
  λ x y, lex (cmp x.1 y.1) (cmp x.2 y.2).

(** [x] does not sort after [y] when rows are compared on [key]. *)
Definition le_by {A K} `{Cmp K} (key : A → K) : relation A :=
  λ x y, cmp (key x) (key y) ≠ Gt.

Global Instance le_by_dec {A K} `{Cmp K} (key : A → K) : RelDecision (le_by key).
Proof. intros x y. unfold le_by. apply _. Defined.

(** Strictly before: used for "strictly ascending". *)
Definition lt_by {A K} `{Cmp K} (key : A → K) : relation A :=
  λ x y, cmp (key x) (key y) = Lt.

Global Instance lt_by_dec {A K} `{Cmp K} (key : A → K) : RelDecision (lt_by key).
Proof. intros x y. unfold lt_by. apply _. Defined.

(** The rows of [l] sorted on [key].  Rows that tie on the key are left in
    the order they have in [l]; for ORDER BY that order is the model's, as
    SQL promises none among such rows. *)
Definition sort_by {A K} `{Cmp K} (key : A → K) (l : list A) : list A :=
  merge_sort (le_by key) l.

(** ** JavaScript values shared by the modules *)

Module Js.

(** What a [catch] clause receives: an [Error] instance with its
    [message], or any other thrown value with its [String(..)] rendering. *)
Inductive thrown :=
  | ErrorObject (message : string)
  | NonError (rendered : string).

(** Outcome of a call that may throw, or of an awaited promise. *)
Inductive Result (A : Type) :=
  | Ok (a : A)
  | Throw (e : thrown).
Arguments Ok {A} a.
Arguments Throw {A} e.

Definition bind {A B} (m : Result A) (k : A → Result B) : Result B :=
  match m with
  | Ok a => k a
  | Throw e => Throw e
  end.

(** [try { body } catch { handler }] *)
Definition try_catch {A} (body : Result A) (handler : thrown → Result A) : Result A :=
  match body with
  | Ok a => Ok a
  | Throw e => handler e
  end.

End Js.

Global Instance result_bind : MBind Js.Result := λ A B k m, Js.bind m k.
Global Instance result_ret : MRet Js.Result := λ A a, Js.Ok a.

(** ** src/lib/pg-schema.ts *)

Module TableRow.
Record t := mk {
  table_schema : string;
  table_name : string;
  table_type : string
}.
Global Instance eq_dec : EqDecision t.
Proof. solve_decision. Defined.
End TableRow.

Module ColumnRow.
Record t := mk {
  table_schema : string;
  table_name : string;
  column_name : string;
  ordinal_position : Z;
  data_type : string;
  udt_schema : string;
  udt_name : string;
  is_nullable : string;
  column_default : option string;
  character_maximum_length : option Z;
  numeric_precision : option Z;
  numeric_scale : option Z
}.
End ColumnRow.

Module EnumTypeRow.
Record t := mk {
  nspname : string;
  typname : string;
  enumlabel : string;
  enumsortorder : Qc
}.
End EnumTypeRow.

Module PrimaryKeyRow.
Record t := mk {
  table_schema : string;
  table_name : string;
  constraint_name : string;
  column_name : string;
  ordinal_position : Z
}.
End PrimaryKeyRow.

Module UniqueRow.
Record t := mk {
  table_schema : string;
  table_name : string;
  constraint_name : string;
  column_name : string;
  ordinal_position : Z
}.
End UniqueRow.

Module ForeignKeyRow.
Record t := mk {
  table_schema : string;
  table_name : string;
  column_name : string;
  ordinal_position : Z;
  constraint_name : string;
  ref_table_schema : string;
  ref_table_name : string;
  ref_column_name : string
}.
End ForeignKeyRow.

Module IndexRow.
Record t := mk {
  schemaname : string;
  tablename : string;
  indexname : string;
  indexdef : string
}.
End IndexRow.

(** The catalog relations the seven statements read, with the columns the
    statements mention.  [information_schema.tables],
    [information_schema.columns] and [pg_indexes] are read through the
    columns of [TableRow], [ColumnRow] and [IndexRow]. *)

Module PgType.
Record t := mk { oid : Z; typname : string; typnamespace : Z; typtype : string }.
End PgType.

Module PgEnum.
Record t := mk { enumtypid : Z; enumlabel : string; enumsortorder : Qc }.
End PgEnum.

Module PgNamespace.
Record t := mk { oid : Z; nspname : string }.
End PgNamespace.

Module TableConstraints.
Record t := mk {
  constraint_name : string;
  table_schema : string;
  table_name : string;
  constraint_type : string
}.
End TableConstraints.

Module KeyColumnUsage.
Record t := mk {
  constraint_catalog : string;
  constraint_schema : string;
  constraint_name : string;
  table_schema : string;
  table_name : string;
  column_name : string;
  ordinal_position : Z
}.
End KeyColumnUsage.

Module ReferentialConstraints.
Record t := mk {
  constraint_catalog : string;
  constraint_schema : string;
  constraint_name : string;
  unique_constraint_catalog : string;
  unique_constraint_schema : string;
  unique_constraint_name : string
}.
End ReferentialConstraints.

Module ConstraintColumnUsage.
Record t := mk {
  constraint_catalog : string;
  constraint_schema : string;
  constraint_name : string;
  table_schema : string;
  table_name : string;
  column_name : string
}.
End ConstraintColumnUsage.

Module PgSchema.

(** The state of the database the client is connected to; each relation
    is listed in the physical order in which the server scans it. *)
Record Catalog := {
  information_schema_tables : list TableRow.t;
  information_schema_columns : list ColumnRow.t;
  pg_type : list PgType.t;
  pg_enum : list PgEnum.t;
  pg_namespace : list PgNamespace.t;
  table_constraints : list TableConstraints.t;
  key_column_usage : list KeyColumnUsage.t;
  referential_constraints : list ReferentialConstraints.t;
  constraint_column_usage : list ConstraintColumnUsage.t;
  pg_indexes : list IndexRow.t
}.

(** [l JOIN r ON on]; a joined row [j] is the pair of its two sides, so
    [j.1] and [j.2] are the aliases of the statement (and [j.1.1],
    [j.1.2], [j.2] after a second join). *)
Definition join {A B} (l : list A) (r : list B)
    (on : A * B → Prop) `{∀ j, Decision (on j)} : list (A * B) :=
  filter on (l ≫= λ a, pair a <$> r).

(** The schemas named by every [NOT IN (..)] predicate. *)
Definition SYSTEM_SCHEMAS : list string := ["pg_catalog"; "information_schema"].

Definition TABLES_QUERY (db : Catalog) : list TableRow.t :=
  sort_by (λ r, (TableRow.table_schema r, TableRow.table_name r))
    (filter (λ r, (TableRow.table_schema r ∉ SYSTEM_SCHEMAS)
                  ∧ (TableRow.table_type r ∈ ["BASE TABLE"; "VIEW"]))
       (information_schema_tables db)).

Definition COLUMNS_QUERY (db : Catalog) : list ColumnRow.t :=
  sort_by (λ r, (ColumnRow.table_schema r, (ColumnRow.table_name r, ColumnRow.ordinal_position r)))
    (filter (λ r, ColumnRow.table_schema r ∉ SYSTEM_SCHEMAS)
       (information_schema_columns db)).

Definition ENUMS_QUERY (db : Catalog) : list EnumTypeRow.t :=
  sort_by (λ r, (EnumTypeRow.nspname r, (EnumTypeRow.typname r, EnumTypeRow.enumsortorder r)))
    ((λ j,
        EnumTypeRow.mk (PgNamespace.nspname j.2) (PgType.typname j.1.1)
          (PgEnum.enumlabel j.1.2) (PgEnum.enumsortorder j.1.2)) <$>
     filter (λ j, PgType.typtype j.1.1 = "e"
                  ∧ (PgNamespace.nspname j.2 ∉ SYSTEM_SCHEMAS))
       (join
          (join (pg_type db) (pg_enum db)
             (λ j, PgEnum.enumtypid j.2 = PgType.oid j.1))
          (pg_namespace db)
          (λ j, PgNamespace.oid j.2 = PgType.typnamespace j.1.1))).

Definition PRIMARY_KEYS_QUERY (db : Catalog) : list PrimaryKeyRow.t :=
  sort_by (λ r, (PrimaryKeyRow.table_schema r,
                 (PrimaryKeyRow.table_name r, PrimaryKeyRow.ordinal_position r)))
    ((λ j,
        PrimaryKeyRow.mk (TableConstraints.table_schema j.1) (TableConstraints.table_name j.1)
          (TableConstraints.constraint_name j.1) (KeyColumnUsage.column_name j.2)
          (KeyColumnUsage.ordinal_position j.2)) <$>
     filter (λ j, TableConstraints.constraint_type j.1 = "PRIMARY KEY"
                  ∧ (TableConstraints.table_schema j.1 ∉ SYSTEM_SCHEMAS))
       (join (table_constraints db) (key_column_usage db)
          (λ j,
             TableConstraints.constraint_name j.1 = KeyColumnUsage.constraint_name j.2
             ∧ TableConstraints.table_schema j.1 = KeyColumnUsage.table_schema j.2))).

Definition UNIQUES_QUERY (db : Catalog) : list UniqueRow.t :=
  sort_by (λ r, (UniqueRow.table_schema r,
                 (UniqueRow.table_name r,
                  (UniqueRow.constraint_name r, UniqueRow.ordinal_position r))))
    ((λ j,
        UniqueRow.mk (TableConstraints.table_schema j.1) (TableConstraints.table_name j.1)
          (TableConstraints.constraint_name j.1) (KeyColumnUsage.column_name j.2)
          (KeyColumnUsage.ordinal_position j.2)) <$>
     filter (λ j, TableConstraints.constraint_type j.1 = "UNIQUE"
                  ∧ (TableConstraints.table_schema j.1 ∉ SYSTEM_SCHEMAS))
       (join (table_constraints db) (key_column_usage db)
          (λ j,
             TableConstraints.constraint_name j.1 = KeyColumnUsage.constraint_name j.2
             ∧ TableConstraints.table_schema j.1 = KeyColumnUsage.table_schema j.2))).

Definition FOREIGN_KEYS_QUERY (db : Catalog) : list ForeignKeyRow.t :=
  sort_by (λ r, (ForeignKeyRow.table_schema r,
                 (ForeignKeyRow.table_name r,
                  (ForeignKeyRow.constraint_name r, ForeignKeyRow.ordinal_position r))))
    ((λ j,
        ForeignKeyRow.mk (KeyColumnUsage.table_schema j.1.2) (KeyColumnUsage.table_name j.1.2)
          (KeyColumnUsage.column_name j.1.2) (KeyColumnUsage.ordinal_position j.1.2)
          (ReferentialConstraints.constraint_name j.1.1)
          (ConstraintColumnUsage.table_schema j.2) (ConstraintColumnUsage.table_name j.2)
          (ConstraintColumnUsage.column_name j.2)) <$>
     filter (λ j, KeyColumnUsage.table_schema j.1.2 ∉ SYSTEM_SCHEMAS)
       (join
          (join (referential_constraints db) (key_column_usage db)
             (λ j,
                ReferentialConstraints.constraint_catalog j.1
                  = KeyColumnUsage.constraint_catalog j.2
                ∧ ReferentialConstraints.constraint_schema j.1
                  = KeyColumnUsage.constraint_schema j.2
                ∧ ReferentialConstraints.constraint_name j.1
                  = KeyColumnUsage.constraint_name j.2))
          (constraint_column_usage db)
          (λ j,
             ReferentialConstraints.unique_constraint_catalog j.1.1
               = ConstraintColumnUsage.constraint_catalog j.2
             ∧ ReferentialConstraints.unique_constraint_schema j.1.1
               = ConstraintColumnUsage.constraint_schema j.2
             ∧ ReferentialConstraints.unique_constraint_name j.1.1
               = ConstraintColumnUsage.constraint_name j.2))).

Definition INDEXES_QUERY (db : Catalog) : list IndexRow.t :=
  sort_by (λ r, (IndexRow.schemaname r, IndexRow.tablename r))
    (filter (λ r, IndexRow.schemaname r ∉ SYSTEM_SCHEMAS) (pg_indexes db)).

Record SchemaData := {
  tables : list TableRow.t;
  columns : list ColumnRow.t;
  enums : list EnumTypeRow.t;
  primaryKeys : list PrimaryKeyRow.t;
  uniques : list UniqueRow.t;
  foreignKeys : list ForeignKeyRow.t;
  indexes : list IndexRow.t
}.

(** The seven statements, in the order of the array given to
    [Promise.all]. *)
Inductive Statement :=
  | Tables | Columns | Enums | PrimaryKeys | Uniques | ForeignKeys | Indexes.

(** A connected [pg] client: the database behind it, and for each
    statement whether the server or the transport fails it (network,
    permission, timeout). *)
Record Client := {
  database : Catalog;
  failure : Statement → option Js.thrown
}.

(** [await client.query(sql)], then [.rows]. *)
Definition query {R} (client : Client) (stmt : Statement) (sql : Catalog → list R)
    : Js.Result (list R) :=
  match failure client stmt with
  | Some e => Js.Throw e
  | None => Js.Ok (sql (database client))
  end.

(** The client runs its queued statements one after the other, so the
    first promise of the array to reject is the first rejected in array
    order: [Promise.all] rejects with that reason, and is fulfilled with
    all seven results when none rejects. *)
Definition fetchSchemaData (client : Client) : Js.Result SchemaData :=
  tablesRes ← query client Tables TABLES_QUERY;
  columnsRes ← query client Columns COLUMNS_QUERY;
  enumsRes ← query client Enums ENUMS_QUERY;
  pkRes ← query client PrimaryKeys PRIMARY_KEYS_QUERY;
  uniquesRes ← query client Uniques UNIQUES_QUERY;
  fkRes ← query client ForeignKeys FOREIGN_KEYS_QUERY;
  indexesRes ← query client Indexes INDEXES_QUERY;
  Js.Ok {|
    tables := tablesRes;
    columns := columnsRes;
    enums := enumsRes;
    primaryKeys := pkRes;
    uniques := uniquesRes;
    foreignKeys := fkRes;
    indexes := indexesRes
  |}.

End PgSchema.

(** ** JSON values and the file behind [getCachePath()] *)

Module Json.

#[local] Set Warnings "-register-all".

(** A parsed JSON text.  The properties of an object are listed in the
    order of the text; a name that occurs twice keeps its last value, as
    [JSON.parse] does. *)
Inductive value :=
  | Null
  | Bool (b : bool)
  | Number (n : float)
  | Str (s : string)
  | Array (items : list value)
  | Object (props : list (string * value)).

(** [!v] *)
Definition falsy (v : value) : bool :=
  match v with
  | Null => true
  | Bool b => negb b
  | Number n => PrimFloat.eqb n 0%float || negb (PrimFloat.eqb n n)
  | Str s => bool_decide (s = "")
  | Array _ | Object _ => false
  end.

(** Own property of an object, last occurrence first. *)
Fixpoint lookup_prop (name : string) (props : list (string * value)) : option value :=
  match props with
  | [] => None
  | (k, v) :: rest =>
      match lookup_prop name rest with
      | Some v' => Some v'
      | None => if decide (k = name) then Some v else None
      end
  end.

(** [v.name] for a name that no prototype defines: [None] is
    [undefined]; reading a property of [null] throws a [TypeError]. *)
Definition get (v : value) (name : string) : Js.Result (option value) :=
  match v with
  | Null => Js.Throw (Js.ErrorObject "Cannot read properties of null")
  | Object props => Js.Ok (lookup_prop name props)
  | Bool _ | Number _ | Str _ | Array _ => Js.Ok None
  end.

(** [typeof v], [None] being [undefined]. *)
Definition typeof (v : option value) : string :=
  match v with
  | None => "undefined"
  | Some Null => "object"
  | Some (Bool _) => "boolean"
  | Some (Number _) => "number"
  | Some (Str _) => "string"
  | Some (Array _) | Some (Object _) => "object"
  end.

(** The value is an object of the language (arrays included), which
    [null] is not. *)
Definition is_object (v : option value) : bool :=
  match v with
  | Some (Array _) | Some (Object _) => true
  | _ => false
  end.

(** The text of a file, seen through [JSON.parse]: text that is not JSON,
    or the JSON text of a value. *)
Inductive text :=
  | Malformed (raw : string)
  | Encodes (v : value).

Definition parse (t : text) : Js.Result value :=
  match t with
  | Malformed _ => Js.Throw (Js.ErrorObject "Unexpected token in JSON")
  | Encodes v => Js.Ok v
  end.

Definition stringify (v : value) : text := Encodes v.

End Json.

Module Fs.

(** The file at one path. *)
Inductive file :=
  | Absent
  | Unreadable (e : Js.thrown)
  | Readable (content : Json.text).

Definition existsSync (f : file) : bool :=
  match f with
  | Absent => false
  | Unreadable _ | Readable _ => true
  end.

Definition readFileSync (f : file) : Js.Result Json.text :=
  match f with
  | Absent => Js.Throw (Js.ErrorObject "ENOENT: no such file or directory")
  | Unreadable e => Js.Throw e
  | Readable content => Js.Ok content
  end.

End Fs.

(** ** src/lib/cache.ts *)

Module Cache.

(** ["table" | "view"] *)
Inductive Kind := table | view.

Global Instance Kind_eq_dec : EqDecision Kind.
Proof. solve_decision. Defined.

Record TableCacheEntry := {
  ddl : string;
  schema : option string;
  type : Kind
}.

Record SchemaCache := {
  tables : gmap string TableCacheEntry;
  enums : option string
}.

(** The JSON shape of a cache, as [JSON.stringify] writes it: properties
    that are [undefined] are left out. *)
Definition kind_json (k : Kind) : Json.value :=
  match k with
  | table => Json.Str "table"
  | view => Json.Str "view"
  end.

Definition entry_json (e : TableCacheEntry) : Json.value :=
  Json.Object
    ([("ddl", Json.Str (ddl e))]
     ++ match schema e with Some s => [("schema", Json.Str s)] | None => [] end
     ++ [("type", kind_json (type e))]).

Definition cache_json (c : SchemaCache) : Json.value :=
  Json.Object
    ([("tables", Json.Object (map_to_list (entry_json <$> tables c)))]
     ++ match enums c with Some s => [("enums", Json.Str s)] | None => [] end).

(** [readSchemaCache()], on the file at the cache path; [None] is [null].
    The value returned is the parsed text itself, whatever its shape. *)
Definition readSchemaCache (cacheFile : Fs.file) : Js.Result (option Json.value) :=
  Js.try_catch
    (if negb (Fs.existsSync cacheFile) then mret None
     else
       raw ← Fs.readFileSync cacheFile;
       data ← Json.parse raw;
       if Json.falsy data then mret None
       else
         data_tables ← Json.get data "tables";
         if bool_decide (Json.typeof data_tables ≠ "object") then mret None
         else mret (Some data))
    (λ _, mret None).

(** [writeSchemaCache(cache)]: creating the directory or writing the file
    may throw ([failure]); the file is replaced only when neither does. *)
Definition writeSchemaCache (cache : SchemaCache) (failure : option Js.thrown)
    (cacheFile : Fs.file) : Js.Result unit * Fs.file :=
  match failure with
  | Some e => (Js.Throw e, cacheFile)
  | None => (Js.Ok (), Fs.Readable (Json.stringify (cache_json cache)))
  end.

End Cache.

(** ** src/lib/exclusion.ts *)

Module Exclusion.

Inductive ExclusionRuleType := regex | contains | not_contains.

Record ExclusionRule := {
  id : string;
  type : ExclusionRuleType;
  pattern : string
}.

(** The regular expressions of the runtime: [new RegExp(pattern)] throws a
    [SyntaxError] on a pattern that is not one, and [re.test(s)] answers for
    every string. *)
Record RegExpEngine := {
  RegExp : Type;
  compile : string → Js.Result RegExp;
  test : RegExp → string → bool
}.

(** [s.includes(sub)] *)
Fixpoint includes (s sub : string) : bool :=
  String.prefix sub s
  || match s with
     | EmptyString => false
     | String _ s' => includes s' sub
     end.

Section rules.
Context (engine : RegExpEngine).

Fixpoint isTableExcluded (tableKey : string) (rules : list ExclusionRule) : Js.Result bool :=
  match rules with
  | [] => mret false
  | rule :: rest =>
      hit ←
        match type rule with
        | regex =>
            Js.try_catch
              (re ← compile engine (pattern rule); mret (test engine re tableKey))
              (λ _, mret false)
        | contains => mret (includes tableKey (pattern rule))
        | not_contains => mret (negb (includes tableKey (pattern rule)))
        end;
      if hit : bool then mret true else isTableExcluded tableKey rest
  end.

(** [items.filter(keep)] with a callback that may throw. *)
Fixpoint array_filter {T} (keep : T → Js.Result bool) (items : list T) : Js.Result (list T) :=
  match items with
  | [] => mret []
  | item :: rest =>
      k ← keep item;
      kept ← array_filter keep rest;
      mret (if k : bool then item :: kept else kept)
  end.

Definition filterTables {T} (key : T → string) (items : list T)
    (rules : list ExclusionRule) : Js.Result (list T) :=
  if decide (length rules = 0%nat) then mret items
  else array_filter (λ item, excluded ← isTableExcluded (key item) rules;
                          mret (negb excluded)) items.

End rules.

End Exclusion.

(** ** src/lib/ddl-builder.ts *)

Module DdlBuilder.

(** Modelled from the spec: the synthesizer of [src/lib/ddl-builder.ts] is
    not among the sources; the definitions of this module follow the nine
    steps of section 4.2 of the design document.  The document fixes what
    each clause carries and in which order, not its punctuation: the
    keywords and separators below are those of PostgreSQL DDL. *)
Record SchemaDdl := {
  tableDdls : gmap string string;
  tableTypes : gmap string Cache.Kind
}.

(** Modelled from the spec: the qualified name [<schema>.<relation>]
    (section 3). *)
Definition qualified_name (schema name : string) : string :=
  schema ++ "." ++ name.

(** Modelled from the spec: the key of a relation row. *)
Definition relation_key (t : TableRow.t) : string :=
  qualified_name (TableRow.table_schema t) (TableRow.table_name t).

Definition nl : string := String (ascii_of_nat 10) "".

(** Modelled from the spec: step 1, the labels of the enumerated type
    [(type_schema, type_name)], sorted by sort order; the empty list when
    the type is not a known enum. *)
Definition enum_labels (enums : list EnumTypeRow.t) (type_schema type_name : string)
    : list string :=
  EnumTypeRow.enumlabel <$>
    sort_by EnumTypeRow.enumsortorder
      (filter (λ e, EnumTypeRow.nspname e = type_schema
                    ∧ EnumTypeRow.typname e = type_name) enums).

(** Modelled from the spec: step 2, the columns of a relation, sorted by
    ordinal position ascending. *)
Definition relation_columns (columns : list ColumnRow.t) (t : TableRow.t)
    : list ColumnRow.t :=
  sort_by ColumnRow.ordinal_position
    (filter (λ c, ColumnRow.table_schema c = TableRow.table_schema t
                  ∧ ColumnRow.table_name c = TableRow.table_name t) columns).

(** Modelled from the spec: step 3, the declared type name with the
    character length, or the numeric precision and (only then) scale. *)
Definition declared_type (c : ColumnRow.t) : string :=
  ColumnRow.data_type c ++
  match ColumnRow.character_maximum_length c with
  | Some n => "(" ++ pretty n ++ ")"
  | None =>
      match ColumnRow.numeric_precision c with
      | Some p =>
          "(" ++ pretty p
          ++ match ColumnRow.numeric_scale c with
             | Some sc => "," ++ pretty sc
             | None => ""
             end
          ++ ")"
      | None => ""
      end
  end.

(** Modelled from the spec: step 3, the type text of a column: the quoted
    labels of a known enum, annotated with the name of the type; the base
    type followed by [[]] for an array type (name prefixed by [_]); the
    declared type otherwise. *)
Definition type_text (enums : list EnumTypeRow.t) (c : ColumnRow.t) : string :=
  match enum_labels enums (ColumnRow.udt_schema c) (ColumnRow.udt_name c) with
  | _ :: _ as labels =>
      String.concat " | " ((λ l, "'" ++ l ++ "'") <$> labels)
      ++ " /* " ++ ColumnRow.udt_name c ++ " */"
  | [] =>
      match ColumnRow.udt_name c with
      | String "_" base => base ++ "[]"
      | _ => declared_type c
      end
  end.

(** Modelled from the spec: step 3, one column definition: name, type, a
    trailing [not null] when the column is not nullable, a trailing
    [default <expression>] when it has a default, verbatim. *)
Definition column_definition (enums : list EnumTypeRow.t) (c : ColumnRow.t) : string :=
  ColumnRow.column_name c ++ " " ++ type_text enums c
  ++ (if decide (ColumnRow.is_nullable c = "NO") then " not null" else "")
  ++ match ColumnRow.column_default c with
     | Some e => " default " ++ e
     | None => ""
     end.

(** Modelled from the spec: steps 4 to 6, the names of the constraint
    groups among [names], each once.  The document groups the rows by
    constraint name and gives no order among the groups of a relation:
    they are taken in the order in which the rows first name them. *)
Fixpoint group_names (names : list string) : list string :=
  match names with
  | [] => []
  | g :: names => g :: filter (λ g', g' ≠ g) (group_names names)
  end.

(** Modelled from the spec: the rows of a constraint collection, and the
    index rows, that belong to a relation, in the order of the input. *)
Definition primary_key_rows (primaryKeys : list PrimaryKeyRow.t) (t : TableRow.t)
    : list PrimaryKeyRow.t :=
  filter (λ r, PrimaryKeyRow.table_schema r = TableRow.table_schema t
               ∧ PrimaryKeyRow.table_name r = TableRow.table_name t) primaryKeys.

Definition unique_rows (uniques : list UniqueRow.t) (t : TableRow.t) : list UniqueRow.t :=
  filter (λ r, UniqueRow.table_schema r = TableRow.table_schema t
               ∧ UniqueRow.table_name r = TableRow.table_name t) uniques.

Definition foreign_key_rows (foreignKeys : list ForeignKeyRow.t) (t : TableRow.t)
    : list ForeignKeyRow.t :=
  filter (λ r, ForeignKeyRow.table_schema r = TableRow.table_schema t
               ∧ ForeignKeyRow.table_name r = TableRow.table_name t) foreignKeys.

Definition index_rows (indexes : list IndexRow.t) (t : TableRow.t) : list IndexRow.t :=
  filter (λ i, IndexRow.schemaname i = TableRow.table_schema t
               ∧ IndexRow.tablename i = TableRow.table_name t) indexes.

(** Modelled from the spec: step 4, one named primary-key clause per
    constraint group of the relation, its columns by ordinal position. *)
Definition primary_key_clauses (primaryKeys : list PrimaryKeyRow.t) (t : TableRow.t)
    : list string :=
  let rows := primary_key_rows primaryKeys t in
  (λ g,
     "constraint " ++ g ++ " primary key ("
     ++ String.concat ", "
          (PrimaryKeyRow.column_name <$>
             sort_by PrimaryKeyRow.ordinal_position
               (filter (λ r, PrimaryKeyRow.constraint_name r = g) rows))
     ++ ")")
  <$> group_names (PrimaryKeyRow.constraint_name <$> rows).

(** Modelled from the spec: step 5, one named unique clause per constraint
    group of the relation, its columns by ordinal position. *)
Definition unique_clauses (uniques : list UniqueRow.t) (t : TableRow.t) : list string :=
  let rows := unique_rows uniques t in
  (λ g,
     "constraint " ++ g ++ " unique ("
     ++ String.concat ", "
          (UniqueRow.column_name <$>
             sort_by UniqueRow.ordinal_position
               (filter (λ r, UniqueRow.constraint_name r = g) rows))
     ++ ")")
  <$> group_names (UniqueRow.constraint_name <$> rows).

(** Modelled from the spec: step 6, the clause of one foreign-key group:
    local columns and referenced columns paired by position in the group
    sorted by ordinal position; the referenced relation is qualified when
    its schema is not that of the local relation; a group whose two column
    lists differ in length yields no clause. *)
Definition foreign_key_clause (t : TableRow.t) (g : string)
    (group : list ForeignKeyRow.t) : option string :=
  let rows := sort_by ForeignKeyRow.ordinal_position group in
  let locals := ForeignKeyRow.column_name <$> rows in
  let refs := ForeignKeyRow.ref_column_name <$> rows in
  match rows with
  | [] => None
  | r :: _ =>
      if decide (length locals = length refs) then
        Some ("constraint " ++ g ++ " foreign key (" ++ String.concat ", " locals
              ++ ") references "
              ++ (if decide (ForeignKeyRow.ref_table_schema r = TableRow.table_schema t)
                  then ForeignKeyRow.ref_table_name r
                  else qualified_name (ForeignKeyRow.ref_table_schema r)
                         (ForeignKeyRow.ref_table_name r))
              ++ " (" ++ String.concat ", " refs ++ ")")
      else None
  end.

(** Modelled from the spec: step 6, the foreign-key clauses of a relation,
    one per constraint group. *)
Definition foreign_key_clauses (foreignKeys : list ForeignKeyRow.t) (t : TableRow.t)
    : list string :=
  let rows := foreign_key_rows foreignKeys t in
  omap (λ g, foreign_key_clause t g
               (filter (λ r, ForeignKeyRow.constraint_name r = g) rows))
    (group_names (ForeignKeyRow.constraint_name <$> rows)).

(** Modelled from the spec: step 9, ["table"] for a base table and
    ["view"] otherwise. *)
Definition kind_of (t : TableRow.t) : Cache.Kind :=
  if decide (TableRow.table_type t = "BASE TABLE") then Cache.table else Cache.view.

(** Modelled from the spec: step 7, the creation header of a relation,
    which carries its qualified name. *)
Definition header (t : TableRow.t) : string :=
  match kind_of t with
  | Cache.table => "create table "
  | Cache.view => "create view "
  end ++ relation_key t ++ " (" ++ nl.

(** Modelled from the spec: step 7, the statement of a relation: for a
    table the header, the column definitions and the constraint clauses;
    for a view the column definitions only. *)
Definition statement (t : TableRow.t) (column_definitions clauses : list string) : string :=
  header t
  ++ String.concat ("," ++ nl)
       ((λ d, "  " ++ d) <$>
          match kind_of t with
          | Cache.table => (column_definitions ++ clauses)%list
          | Cache.view => column_definitions
          end)
  ++ nl ++ ");".

(** Modelled from the spec: step 8, the index definitions of a relation,
    verbatim.  The document has the synthesizer group and filter the index
    rows by owning relation and names no key to sort them on: they are
    appended in the order of the input. *)
Definition index_statements (indexes : list IndexRow.t) (t : TableRow.t) : list string :=
  IndexRow.indexdef <$> index_rows indexes t.

(** Modelled from the spec: steps 7 and 8, the DDL text of a relation: its
    statement, then its index definitions as trailing statements. *)
Definition relation_ddl (s : PgSchema.SchemaData) (t : TableRow.t) : string :=
  statement t
    (column_definition (PgSchema.enums s) <$> relation_columns (PgSchema.columns s) t)
    (primary_key_clauses (PgSchema.primaryKeys s) t
     ++ unique_clauses (PgSchema.uniques s) t
     ++ foreign_key_clauses (PgSchema.foreignKeys s) t)%list
  ++ String.concat "" ((λ d, nl ++ d ++ ";") <$> index_statements (PgSchema.indexes s) t).

(** Modelled from the spec: [buildSchemaDdl(snapshot)], the DDL mapping and
    the kind mapping, both keyed by qualified relation name. *)
Definition buildSchemaDdl (s : PgSchema.SchemaData) : SchemaDdl := {|
  tableDdls := list_to_map ((λ t, (relation_key t, relation_ddl s t)) <$> PgSchema.tables s);
  tableTypes := list_to_map ((λ t, (relation_key t, kind_of t)) <$> PgSchema.tables s)
|}.

(** Modelled from the spec: the invariants of the data model (section 3):
    one row per qualified relation name; no two columns of a relation share
    an ordinal position; no two labels of an enumerated type share a sort
    order; no two rows of a constraint group share an ordinal position. *)
Record well_formed (s : PgSchema.SchemaData) : Prop := {
  wf_tables : NoDup (relation_key <$> PgSchema.tables s);
  wf_columns :
    NoDup ((λ c, (ColumnRow.table_schema c, ColumnRow.table_name c,
                  ColumnRow.ordinal_position c)) <$> PgSchema.columns s);
  wf_enums :
    NoDup ((λ e, (EnumTypeRow.nspname e, EnumTypeRow.typname e,
                  EnumTypeRow.enumsortorder e)) <$> PgSchema.enums s);
  wf_primaryKeys :
    NoDup ((λ r, (PrimaryKeyRow.table_schema r, PrimaryKeyRow.table_name r,
                  PrimaryKeyRow.constraint_name r, PrimaryKeyRow.ordinal_position r))
             <$> PgSchema.primaryKeys s);
  wf_uniques :
    NoDup ((λ r, (UniqueRow.table_schema r, UniqueRow.table_name r,
                  UniqueRow.constraint_name r, UniqueRow.ordinal_position r))
             <$> PgSchema.uniques s);
  wf_foreignKeys :
    NoDup ((λ r, (ForeignKeyRow.table_schema r, ForeignKeyRow.table_name r,
                  ForeignKeyRow.constraint_name r, ForeignKeyRow.ordinal_position r))
             <$> PgSchema.foreignKeys s)
}.

(** Two snapshots hold the same rows, collection by collection, in any
    order. *)
Record same_rows (s1 s2 : PgSchema.SchemaData) : Prop := {
  same_tables : PgSchema.tables s1 ≡ₚ PgSchema.tables s2;
  same_columns : PgSchema.columns s1 ≡ₚ PgSchema.columns s2;
  same_enums : PgSchema.enums s1 ≡ₚ PgSchema.enums s2;
  same_primaryKeys : PgSchema.primaryKeys s1 ≡ₚ PgSchema.primaryKeys s2;
  same_uniques : PgSchema.uniques s1 ≡ₚ PgSchema.uniques s2;
  same_foreignKeys : PgSchema.foreignKeys s1 ≡ₚ PgSchema.foreignKeys s2;
  same_indexes : PgSchema.indexes s1 ≡ₚ PgSchema.indexes s2
}.


End DdlBuilder.

(** ** The sync command *)

Module SyncSchema.

(** [s.split(sep)] for a one-character separator. *)
Fixpoint split (sep : ascii) (s : string) : list string :=
  match s with
  | EmptyString => [""]
  | String c rest =>
      if Ascii.eqb c sep then "" :: split sep rest
      else
        match split sep rest with
        | first :: others => String c first :: others
        | [] => [String c ""]
        end
  end.

Inductive SyncState := checking | no_credentials | loading | success | error.

Inductive ToastStyle := Success | Failure.

Record Toast := {
  style : ToastStyle;
  title : string;
  message : string
}.

(** What the command shows and what it has stored: the three pieces of
    component state, the toasts shown (latest last), the file at the
    cache path, and the arguments of the calls of [writeSchemaCache]
    (latest last). *)
Record World := {
  state : SyncState;
  errorMessage : option string;
  tableCount : nat;
  toasts : list Toast;
  cacheFile : Fs.file;
  written : list Cache.SchemaCache
}.

(** The points at which the command looks at [cancelled], the flag set
    when the view is closed. *)
Inductive Checkpoint := AfterConnect | AfterFetch | AfterWrite | InCatch.

(** What one attempt meets: the outcome of building the client from the
    connection string, of [client.connect()] (the connected client), of the
    file system on writing, of [client.end()], and whether the view was
    closed by each checkpoint. *)
Record Attempt := {
  config : Js.Result unit;
  connect : Js.Result PgSchema.Client;
  cancelled : Checkpoint → bool;
  write_failure : option Js.thrown;
  end_failure : option Js.thrown
}.

(** An asynchronous computation over the world. *)
Definition Task (A : Type) : Type := World → Js.Result A * World.

Definition task_ret {A} (a : A) : Task A := λ w, (Js.Ok a, w).

Definition task_bind {A B} (m : Task A) (k : A → Task B) : Task B :=
  λ w, match m w with
       | (Js.Ok a, w') => k a w'
       | (Js.Throw e, w') => (Js.Throw e, w')
       end.

Definition await {A} (r : Js.Result A) : Task A := λ w, (r, w).

Definition try_catch {A} (body : Task A) (handler : Js.thrown → Task A) : Task A :=
  λ w, match body w with
       | (Js.Ok a, w') => (Js.Ok a, w')
       | (Js.Throw e, w') => handler e w'
       end.

Definition try_finally {A} (body : Task A) (cleanup : Task unit) : Task A :=
  λ w, match body w with
       | (r, w') =>
           match cleanup w' with
           | (Js.Ok _, w'') => (r, w'')
           | (Js.Throw e, w'') => (Js.Throw e, w'')
           end
       end.

Definition setState (s : SyncState) : Task unit :=
  λ w, (Js.Ok (),
        {| state := s; errorMessage := errorMessage w; tableCount := tableCount w;
           toasts := toasts w; cacheFile := cacheFile w; written := written w |}).

Definition setErrorMessage (m : option string) : Task unit :=
  λ w, (Js.Ok (),
        {| state := state w; errorMessage := m; tableCount := tableCount w;
           toasts := toasts w; cacheFile := cacheFile w; written := written w |}).

Definition setTableCount (n : nat) : Task unit :=
  λ w, (Js.Ok (),
        {| state := state w; errorMessage := errorMessage w; tableCount := n;
           toasts := toasts w; cacheFile := cacheFile w; written := written w |}).

Definition showToast (t : Toast) : Task unit :=
  λ w, (Js.Ok (),
        {| state := state w; errorMessage := errorMessage w; tableCount := tableCount w;
           toasts := toasts w ++ [t]; cacheFile := cacheFile w; written := written w |}).

(** The call [writeSchemaCache(cache)]. *)
Definition writeSchemaCache (cache : Cache.SchemaCache) (failure : option Js.thrown)
    : Task unit :=
  λ w, match Cache.writeSchemaCache cache failure (cacheFile w) with
       | (r, file) =>
           (r, {| state := state w; errorMessage := errorMessage w;
                  tableCount := tableCount w; toasts := toasts w;
                  cacheFile := file; written := written w ++ [cache] |})
       end.

(** [err instanceof Error ? err.message : String(err)] *)
Definition message_of (err : Js.thrown) : string :=
  match err with
  | Js.ErrorObject message => message
  | Js.NonError rendered => rendered
  end.

(** [tables[key] = entry] on an object created by [{}]: assigning to
    [__proto__] replaces the prototype and adds no property. *)
Definition assign (key : string) (entry : Cache.TableCacheEntry)
    (tables : gmap string Cache.TableCacheEntry) : gmap string Cache.TableCacheEntry :=
  if decide (key = "__proto__") then tables else <[key := entry]> tables.

(** The entry stored for one [[key, ddl]] of [tableDdls]. *)
Definition cache_entry (tableTypes : gmap string Cache.Kind) (key ddl : string)
    : Cache.TableCacheEntry :=
  {| Cache.ddl := ddl;
     Cache.schema := head (split "." key);
     Cache.type := default Cache.table (tableTypes !! key) |}.

(** The loop [for (const [key, ddl] of tableDdls) tables[key] = ..]. *)
Definition cache_tables (tableDdls : gmap string string) (tableTypes : gmap string Cache.Kind)
    : gmap string Cache.TableCacheEntry :=
  foldl (λ tables entry, assign entry.1 (cache_entry tableTypes entry.1 entry.2) tables)
    ∅ (map_to_list tableDdls).

Section command.
(** [buildSchemaDdl] of [./lib/ddl-builder], of which the command uses
    the two mappings it returns. *)
Context (buildSchemaDdl : PgSchema.SchemaData → DdlBuilder.SchemaDdl).

(** The asynchronous block of [Command] that is started once a
    connection string is known and the state is ["loading"]. *)
Definition sync (a : Attempt) : Task unit :=
  task_bind (await (config a)) (λ _,
  try_finally
    (try_catch
       (task_bind (await (connect a)) (λ client,
        if cancelled a AfterConnect then task_ret ()
        else
        task_bind (await (PgSchema.fetchSchemaData client)) (λ data,
        if cancelled a AfterFetch then task_ret ()
        else
        let built := buildSchemaDdl data in
        let tables :=
          cache_tables (DdlBuilder.tableDdls built) (DdlBuilder.tableTypes built) in
        let cache := {| Cache.tables := tables; Cache.enums := None |} in
        task_bind (writeSchemaCache cache (write_failure a)) (λ _,
        if cancelled a AfterWrite then task_ret ()
        else
        task_bind (setTableCount (size tables)) (λ _,
        task_bind (setState success) (λ _,
        showToast {| style := Success; title := "Schema synced";
                     message := pretty (size tables) ++ " tables cached" |}))))))
       (λ err,
          if cancelled a InCatch then task_ret ()
          else
          let msg := message_of err in
          task_bind (setErrorMessage (Some msg)) (λ _,
          task_bind (setState error) (λ _,
          showToast {| style := Failure; title := "Sync failed"; message := msg |}))))
    (try_catch
       (await (match end_failure a with Some e => Js.Throw e | None => Js.Ok () end))
       (λ _, task_ret ()))).

End command.

End SyncSchema.

(** ** Equality of outcomes *)

Global Instance thrown_eq_dec : EqDecision Js.thrown.
Proof. solve_decision. Defined.

Global Instance Result_eq_dec {A} `{EqDecision A} : EqDecision (Js.Result A).
Proof. solve_decision. Defined.

(** [items.find(p)] *)
Fixpoint array_find {A} (P : A → Prop) `{∀ x, Decision (P x)} (items : list A) : option A :=
  match items with
  | [] => None
  | item :: rest => if decide (P item) then Some item else array_find P rest
  end.

(** ** The explore command: grouping the cached tables *)

Module ExploreTables.

(** One listed table: [{ key, entry }]. *)
Record Item := {
  key : string;
  entry : Cache.TableCacheEntry
}.

(** [item.key.includes(".") ? item.key.split(".")[0]! : "public"] *)
Definition schema_of (k : string) : string :=
  if Exclusion.includes k "."
  then match SyncSchema.split "." k with
       | first :: _ => first
       | [] => ""
       end
  else "public".

(** The loop of [groupBySchema]: the list of the item's schema gets the
    item pushed at its end. *)
Definition groupBySchema (items : list Item) : gmap string (list Item) :=
  foldl (λ map item,
           let schema := schema_of (key item) in
           let list := default [] (map !! schema) in
           <[schema := (list ++ [item])%list]> map)
    ∅ items.

End ExploreTables.

(** ** src/lib/credentials.ts *)

Module Credentials.

Definition STORAGE_KEY : string := "connectionString".

Record Preferences := {
  connectionString : option string
}.

Section storage.
(** [String.prototype.trim] of the runtime. *)
Context (trim : string → string).

(** [getConnectionString()], on the local storage of the extension and
    its preferences. *)
Definition getConnectionString (storage : gmap string string) (prefs : Preferences)
    : string :=
  match storage !! STORAGE_KEY with
  | Some fromStorage =>
      if bool_decide (fromStorage ≠ "") && bool_decide (trim fromStorage ≠ "")
      then trim fromStorage
      else default "" (trim <$> connectionString prefs)
  | None => default "" (trim <$> connectionString prefs)
  end.

Definition setConnectionString (value : string) (storage : gmap string string)
    : gmap string string :=
  <[STORAGE_KEY := trim value]> storage.

Definition clearConnectionString (storage : gmap string string) : gmap string string :=
  delete STORAGE_KEY storage.

End storage.

(** A trim for the examples, which removes the six ASCII white-space
    characters only. *)
Definition is_space (c : ascii) : bool :=
  bool_decide (c ∈ [" "%char; ascii_of_nat 9; ascii_of_nat 10; ascii_of_nat 11;
                    ascii_of_nat 12; ascii_of_nat 13]).

Fixpoint trim_start (s : string) : string :=
  match s with
  | String c rest => if is_space c then trim_start rest else s
  | EmptyString => ""
  end.

Fixpoint trim_end (s : string) : string :=
  match s with
  | String c rest =>
      match trim_end rest with
      | EmptyString => if is_space c then "" else String c ""
      | kept => String c kept
      end
  | EmptyString => ""
  end.

Definition ascii_trim (s : string) : string := trim_end (trim_start s).

End Credentials.

(** ** src/lib/exclusion.ts: the stored rules *)

Module ExclusionStore.

Definition type_json (t : Exclusion.ExclusionRuleType) : Json.value :=
  match t with
  | Exclusion.regex => Json.Str "regex"
  | Exclusion.contains => Json.Str "contains"
  | Exclusion.not_contains => Json.Str "not_contains"
  end.

(** The JSON of a rule, as [JSON.stringify] writes it. *)
Definition rule_json (r : Exclusion.ExclusionRule) : Json.value :=
  Json.Object [("id", Json.Str (Exclusion.id r));
               ("type", type_json (Exclusion.type r));
               ("pattern", Json.Str (Exclusion.pattern r))].

(** The string kept under ["exclusionRules"], if any: [!stored] holds of
    no string and of the empty string. *)
Definition absent_or_empty (stored : option Json.text) : bool :=
  match stored with
  | None => true
  | Some (Json.Malformed raw) => bool_decide (raw = "")
  | Some (Json.Encodes _) => false
  end.

(** [getExclusionRules()]: the elements of the stored array, as parsed. *)
Definition getExclusionRules (stored : option Json.text) : Js.Result (list Json.value) :=
  match stored with
  | None => mret []
  | Some text =>
      if absent_or_empty stored then mret []
      else
        Js.try_catch
          (parsed ← Json.parse text;
           mret (match parsed with
                 | Json.Array items => items
                 | _ => []
                 end))
          (λ _, mret [])
  end.

(** [addExclusionRule(type, pattern)], [id] being what [generateId()]
    returns: the rule, and the string stored. *)
Definition addExclusionRule (id : string) (type : Exclusion.ExclusionRuleType)
    (pattern : string) (stored : option Json.text)
    : Js.Result (Exclusion.ExclusionRule * option Json.text) :=
  rules ← getExclusionRules stored;
  let rule := {| Exclusion.id := id; Exclusion.type := type;
                 Exclusion.pattern := pattern |} in
  mret (rule, Some (Json.stringify (Json.Array (rules ++ [rule_json rule])%list))).

(** [r.id !== id] *)
Definition id_differs (id : string) (r : Json.value) : Js.Result bool :=
  rid ← Json.get r "id";
  mret (match rid with
        | Some (Json.Str s) => bool_decide (s ≠ id)
        | _ => true
        end).

(** [removeExclusionRule(id)]: the string stored. *)
Definition removeExclusionRule (id : string) (stored : option Json.text)
    : Js.Result (option Json.text) :=
  rules ← getExclusionRules stored;
  filtered ← Exclusion.array_filter (id_differs id) rules;
  mret (Some (Json.stringify (Json.Array filtered))).

End ExclusionStore.

(** ** src/lib/databases.ts: the registry of databases *)

Module Databases.

(** ["postgres"] *)
Inductive DatabaseType := postgres.

Record StoredDatabase := {
  id : string;
  name : string;
  type : DatabaseType;
  connectionString : string;
  lastSyncedAt : option string;
  isDefault : option bool;
  showTableNamesOnly : option bool
}.

(** [Omit<StoredDatabase, "id">] *)
Record NewDatabase := {
  new_name : string;
  new_type : DatabaseType;
  new_connectionString : string;
  new_lastSyncedAt : option string;
  new_isDefault : option bool;
  new_showTableNamesOnly : option bool
}.

(** [Partial<Omit<StoredDatabase, "id">>]: [None] for a property the
    patch does not have; an optional property may be present and
    [undefined]. *)
Record Patch := {
  patch_name : option string;
  patch_type : option DatabaseType;
  patch_connectionString : option string;
  patch_lastSyncedAt : option (option string);
  patch_isDefault : option (option bool);
  patch_showTableNamesOnly : option (option bool)
}.

Record DatabaseRegistry := {
  databases : list StoredDatabase;
  defaultId : option string
}.

(** The functions below take the registry that [readRegistry()] returns
    and give the registry they pass to [writeRegistry], once
    [ensureMigratedAsync()] has returned. *)

(** [{ ...db, id }] *)
Definition with_id (db : NewDatabase) (i : string) : StoredDatabase :=
  {| id := i; name := new_name db; type := new_type db;
     connectionString := new_connectionString db;
     lastSyncedAt := new_lastSyncedAt db; isDefault := new_isDefault db;
     showTableNamesOnly := new_showTableNamesOnly db |}.

(** [{ ...d, isDefault: b }] *)
Definition with_isDefault (d : StoredDatabase) (b : bool) : StoredDatabase :=
  {| id := id d; name := name d; type := type d;
     connectionString := connectionString d; lastSyncedAt := lastSyncedAt d;
     isDefault := Some b; showTableNamesOnly := showTableNamesOnly d |}.

(** [{ ...d, ...patch }] *)
Definition apply_patch (d : StoredDatabase) (patch : Patch) : StoredDatabase :=
  {| id := id d;
     name := default (name d) (patch_name patch);
     type := default (type d) (patch_type patch);
     connectionString := default (connectionString d) (patch_connectionString patch);
     lastSyncedAt := default (lastSyncedAt d) (patch_lastSyncedAt patch);
     isDefault := default (isDefault d) (patch_isDefault patch);
     showTableNamesOnly := default (showTableNamesOnly d) (patch_showTableNamesOnly patch) |}.

(** A [defaultId] that is neither [null] nor the empty string. *)
Definition truthy (i : option string) : bool :=
  match i with
  | Some s => bool_decide (s ≠ "")
  | None => false
  end.

Definition getDatabaseSync (registry : DatabaseRegistry) (i : string)
    : option StoredDatabase :=
  array_find (λ d, id d = i) (databases registry).

(** [addDatabase(db)], [i] being what [generateDbId()] returns: the value
    returned and the registry written. *)
Definition addDatabase (i : string) (db : NewDatabase) (registry : DatabaseRegistry)
    : StoredDatabase * DatabaseRegistry :=
  let newDb := with_id db i in
  let nextDatabases := (databases registry ++ [newDb])%list in
  let default_ :=
    if negb (truthy (defaultId registry)) && bool_decide (length nextDatabases = 1%nat)
    then Some i else defaultId registry in
  (with_isDefault newDb (bool_decide (default_ = Some i)),
   {| databases := nextDatabases; defaultId := default_ |}).

Definition updateDatabase (i : string) (patch : Patch) (registry : DatabaseRegistry)
    : DatabaseRegistry :=
  {| databases :=
       (λ d, if decide (id d = i) then apply_patch d patch else d) <$> databases registry;
     defaultId := defaultId registry |}.

Definition removeDatabase (i : string) (registry : DatabaseRegistry) : DatabaseRegistry :=
  let remaining := filter (λ d, id d ≠ i) (databases registry) in
  {| databases := remaining;
     defaultId :=
       if decide (defaultId registry = Some i) then id <$> head remaining
       else defaultId registry |}.

Definition getDefaultDatabaseSync (registry : DatabaseRegistry) : option StoredDatabase :=
  if truthy (defaultId registry)
  then array_find (λ d, Some (id d) = defaultId registry) (databases registry)
  else head (databases registry).

Definition setDefaultDatabase (i : string) (registry : DatabaseRegistry)
    : DatabaseRegistry :=
  {| databases := (λ d, with_isDefault d (bool_decide (id d = i))) <$> databases registry;
     defaultId := Some i |}.

(** The default, when there is one, names a database of the registry. *)
Definition default_listed (registry : DatabaseRegistry) : Prop :=
  ∀ i, defaultId registry = Some i → i ∈ id <$> databases registry.

End Databases.

(** ** Catalogs that differ in scan order only *)

Module ScanOrder.

(** The two catalogs hold the same rows in each relation, possibly
    scanned in another order. *)
Record same_catalog (db db' : PgSchema.Catalog) : Prop := {
  same_information_schema_tables :
    PgSchema.information_schema_tables db ≡ₚ PgSchema.information_schema_tables db';
  same_information_schema_columns :
    PgSchema.information_schema_columns db ≡ₚ PgSchema.information_schema_columns db';
  same_pg_type : PgSchema.pg_type db ≡ₚ PgSchema.pg_type db';
  same_pg_enum : PgSchema.pg_enum db ≡ₚ PgSchema.pg_enum db';
  same_pg_namespace : PgSchema.pg_namespace db ≡ₚ PgSchema.pg_namespace db';
  same_table_constraints : PgSchema.table_constraints db ≡ₚ PgSchema.table_constraints db';
  same_key_column_usage : PgSchema.key_column_usage db ≡ₚ PgSchema.key_column_usage db';
  same_referential_constraints :
    PgSchema.referential_constraints db ≡ₚ PgSchema.referential_constraints db';
  same_constraint_column_usage :
    PgSchema.constraint_column_usage db ≡ₚ PgSchema.constraint_column_usage db';
  same_pg_indexes : PgSchema.pg_indexes db ≡ₚ PgSchema.pg_indexes db'
}.

End ScanOrder.

(** ** Sample data *)

Module Fixtures.
Import PgSchema.

Definition users_name_idx : IndexRow.t :=
  IndexRow.mk "public" "users" "users_name_idx"
    "CREATE INDEX users_name_idx ON public.users USING btree (name)".
Definition users_email_idx : IndexRow.t :=
  IndexRow.mk "public" "users" "users_email_idx"
    "CREATE INDEX users_email_idx ON public.users USING btree (email)".

Definition col (tbl name : string) (pos : Z) (ty udt : string) (nullable : string)
    (len : option Z) : ColumnRow.t :=
  ColumnRow.mk "public" tbl name pos ty "pg_catalog" udt nullable None len None None.

Definition shop_db : Catalog := {|
  information_schema_tables :=
    [ TableRow.mk "public" "users" "BASE TABLE";
      TableRow.mk "pg_catalog" "pg_class" "BASE TABLE";
      TableRow.mk "public" "orders" "BASE TABLE";
      TableRow.mk "public" "active_users" "VIEW";
      TableRow.mk "public" "remote_log" "FOREIGN" ];
  information_schema_columns :=
    [ col "users" "name" 2 "character varying" "varchar" "YES" (Some 100);
      col "users" "id" 1 "integer" "int4" "NO" None;
      col "orders" "user_id" 2 "integer" "int4" "NO" None;
      col "orders" "id" 1 "integer" "int4" "NO" None;
      ColumnRow.mk "pg_catalog" "pg_class" "oid" 1 "oid" "pg_catalog" "oid" "NO"
        None None None None ];
  pg_type := [ PgType.mk 500 "status" 2200 "e"; PgType.mk 23 "int4" 11 "b" ];
  pg_enum := [ PgEnum.mk 500 "inactive" (Q2Qc 2); PgEnum.mk 500 "active" (Q2Qc 1) ];
  pg_namespace := [ PgNamespace.mk 2200 "public"; PgNamespace.mk 11 "pg_catalog" ];
  table_constraints :=
    [ TableConstraints.mk "users_pkey" "public" "users" "PRIMARY KEY";
      TableConstraints.mk "users_email_key" "public" "users" "UNIQUE";
      TableConstraints.mk "orders_user_fk" "public" "orders" "FOREIGN KEY" ];
  key_column_usage :=
    [ KeyColumnUsage.mk "shop" "public" "users_pkey" "public" "users" "id" 1;
      KeyColumnUsage.mk "shop" "public" "users_email_key" "public" "users" "email" 1;
      KeyColumnUsage.mk "shop" "public" "orders_user_fk" "public" "orders" "user_id" 1 ];
  referential_constraints :=
    [ ReferentialConstraints.mk "shop" "public" "orders_user_fk" "shop" "public" "users_pkey" ];
  constraint_column_usage :=
    [ ConstraintColumnUsage.mk "shop" "public" "users_pkey" "public" "users" "id" ];
  pg_indexes := [ users_name_idx; users_email_idx ]
|}.

(** The same database after its indexes were rebuilt in the other
    order, so that [pg_indexes] scans them the other way round. *)
Definition shop_db_reindexed : Catalog := {|
  information_schema_tables := information_schema_tables shop_db;
  information_schema_columns := information_schema_columns shop_db;
  pg_type := pg_type shop_db;
  pg_enum := pg_enum shop_db;
  pg_namespace := pg_namespace shop_db;
  table_constraints := table_constraints shop_db;
  key_column_usage := key_column_usage shop_db;
  referential_constraints := referential_constraints shop_db;
  constraint_column_usage := constraint_column_usage shop_db;
  pg_indexes := [ users_email_idx; users_name_idx ]
|}.

Definition snapshot_of (db : Catalog) : SchemaData := {|
  tables := TABLES_QUERY db;
  columns := COLUMNS_QUERY db;
  enums := ENUMS_QUERY db;
  primaryKeys := PRIMARY_KEYS_QUERY db;
  uniques := UNIQUES_QUERY db;
  foreignKeys := FOREIGN_KEYS_QUERY db;
  indexes := INDEXES_QUERY db
|}.

(** The same rows, each collection in the opposite order. *)
Definition reordered (s : SchemaData) : SchemaData := {|
  tables := reverse (tables s);
  columns := reverse (columns s);
  enums := reverse (enums s);
  primaryKeys := reverse (primaryKeys s);
  uniques := reverse (uniques s);
  foreignKeys := reverse (foreignKeys s);
  indexes := reverse (indexes s)
|}.

(** A client on which every statement succeeds. *)
Definition shop_client : Client :=
  {| database := shop_db; failure := λ _, None |}.

(** A client whose columns statement is refused by the server. *)
Definition denied_client : Client :=
  {| database := shop_db;
     failure := λ stmt,
       match stmt with
       | Columns => Some (Js.ErrorObject "permission denied for table columns")
       | _ => None
       end |}.

(** A cache file whose text is [{"tables": null}]. *)
Definition null_tables_file : Fs.file :=
  Fs.Readable (Json.Encodes (Json.Object [("tables", Json.Null)])).

(** A small regular-expression engine for the examples: the pattern ["("]
    is rejected, as an unterminated group is; any other pattern is matched
    literally. *)
Definition literal_engine : Exclusion.RegExpEngine := {|
  Exclusion.RegExp := string;
  Exclusion.compile := λ p,
    if decide (p = "(")
    then Js.Throw (Js.ErrorObject "Invalid regular expression: /(/: Unterminated group")
    else Js.Ok p;
  Exclusion.test := λ re s, Exclusion.includes s re
|}.

Definition broken_rule : Exclusion.ExclusionRule :=
  {| Exclusion.id := "rule_1"; Exclusion.type := Exclusion.regex; Exclusion.pattern := "(" |}.

Definition hdb_rule : Exclusion.ExclusionRule :=
  {| Exclusion.id := "rule_2"; Exclusion.type := Exclusion.contains;
     Exclusion.pattern := "hdb_catalog" |}.

(** A cache written by an earlier sync. *)
Definition earlier_cache : Cache.SchemaCache := {|
  Cache.tables :=
    {[ "public.users" :=
         {| Cache.ddl := "create table public.users ();";
            Cache.schema := Some "public"; Cache.type := Cache.table |} ]};
  Cache.enums := None
|}.

(** The world when an attempt starts: the state is ["loading"]. *)
Definition loading_world : SyncSchema.World := {|
  SyncSchema.state := SyncSchema.loading;
  SyncSchema.errorMessage := None;
  SyncSchema.tableCount := 0;
  SyncSchema.toasts := [];
  SyncSchema.cacheFile := Fs.Readable (Json.stringify (Cache.cache_json earlier_cache));
  SyncSchema.written := []
|}.

(** The server refuses the connection and the view stays open. *)
Definition refused_attempt : SyncSchema.Attempt := {|
  SyncSchema.config := Js.Ok ();
  SyncSchema.connect := Js.Throw (Js.ErrorObject "connect ECONNREFUSED 127.0.0.1:5432");
  SyncSchema.cancelled := λ _, false;
  SyncSchema.write_failure := None;
  SyncSchema.end_failure := None
|}.

(** The server refuses the connection after the view was closed. *)
Definition refused_after_close : SyncSchema.Attempt := {|
  SyncSchema.config := Js.Ok ();
  SyncSchema.connect := Js.Throw (Js.ErrorObject "connect ECONNREFUSED 127.0.0.1:5432");
  SyncSchema.cancelled := λ _, true;
  SyncSchema.write_failure := None;
  SyncSchema.end_failure := None
|}.

(** The connection succeeds and the columns statement is refused. *)
Definition denied_attempt : SyncSchema.Attempt := {|
  SyncSchema.config := Js.Ok ();
  SyncSchema.connect := Js.Ok denied_client;
  SyncSchema.cancelled := λ _, false;
  SyncSchema.write_failure := None;
  SyncSchema.end_failure := None
|}.

(** Everything succeeds. *)
Definition shop_attempt : SyncSchema.Attempt := {|
  SyncSchema.config := Js.Ok ();
  SyncSchema.connect := Js.Ok shop_client;
  SyncSchema.cancelled := λ _, false;
  SyncSchema.write_failure := None;
  SyncSchema.end_failure := None
|}.

End Fixtures.

(** ** More sample data *)

Module Samples.
Import PgSchema.

(** The same catalog, every relation scanned the other way round. *)
Definition rescanned (db : Catalog) : Catalog := {|
  information_schema_tables := reverse (information_schema_tables db);
  information_schema_columns := reverse (information_schema_columns db);
  pg_type := reverse (pg_type db);
  pg_enum := reverse (pg_enum db);
  pg_namespace := reverse (pg_namespace db);
  table_constraints := reverse (table_constraints db);
  key_column_usage := reverse (key_column_usage db);
  referential_constraints := reverse (referential_constraints db);
  constraint_column_usage := reverse (constraint_column_usage db);
  pg_indexes := reverse (pg_indexes db)
|}.

Definition rescanned_client : Client :=
  {| database := rescanned Fixtures.shop_db; failure := λ _, None |}.




Definition shipments_order_idx : IndexRow.t :=
  IndexRow.mk "public" "shipments" "shipments_order_idx"
    "CREATE INDEX shipments_order_idx ON public.shipments USING btree (order_id)".
Definition shipments_line_idx : IndexRow.t :=
  IndexRow.mk "public" "shipments" "shipments_line_idx"
    "CREATE INDEX shipments_line_idx ON public.shipments USING btree (line_no)".

(** A snapshot of the same two relations as the data model describes it:
    one row per column of each constraint group. *)
Definition orders_snapshot : SchemaData := {|
  tables :=
    [ TableRow.mk "public" "orders" "BASE TABLE";
      TableRow.mk "public" "shipments" "BASE TABLE" ];
  columns :=
    [ Fixtures.col "orders" "id" 1 "integer" "int4" "NO" None;
      Fixtures.col "orders" "line_no" 2 "integer" "int4" "NO" None;
      Fixtures.col "shipments" "order_id" 1 "integer" "int4" "NO" None;
      Fixtures.col "shipments" "line_no" 2 "integer" "int4" "NO" None ];
  enums := [];
  primaryKeys :=
    [ PrimaryKeyRow.mk "public" "orders" "orders_pkey" "id" 1;
      PrimaryKeyRow.mk "public" "orders" "orders_pkey" "line_no" 2 ];
  uniques :=
    [ UniqueRow.mk "public" "shipments" "shipments_line_key" "order_id" 1;
      UniqueRow.mk "public" "shipments" "shipments_line_key" "line_no" 2 ];
  foreignKeys :=
    [ ForeignKeyRow.mk "public" "shipments" "order_id" 1 "shipments_order_fk"
        "public" "orders" "id";
      ForeignKeyRow.mk "public" "shipments" "line_no" 2 "shipments_order_fk"
        "public" "orders" "line_no" ];
  indexes := [ shipments_order_idx; shipments_line_idx ]
|}.

(** The same rows: relations, columns, enum labels and the rows of every
    constraint group the other way round, the index rows as they were. *)
Definition shuffled (s : SchemaData) : SchemaData := {|
  tables := reverse (tables s);
  columns := reverse (columns s);
  enums := reverse (enums s);
  primaryKeys := reverse (primaryKeys s);
  uniques := reverse (uniques s);
  foreignKeys := reverse (foreignKeys s);
  indexes := indexes s
|}.






(** The connection succeeds and the view is closed meanwhile. *)
Definition closed_attempt : SyncSchema.Attempt := {|
  SyncSchema.config := Js.Ok ();
  SyncSchema.connect := Js.Ok Fixtures.shop_client;
  SyncSchema.cancelled := λ _, true;
  SyncSchema.write_failure := None;
  SyncSchema.end_failure := Some (Js.ErrorObject "Connection terminated")
|}.

Definition shop_database : Databases.StoredDatabase := {|
  Databases.id := "db_1";
  Databases.name := "Shop";
  Databases.type := Databases.postgres;
  Databases.connectionString := "postgresql://app@db.internal:5432/shop";
  Databases.lastSyncedAt := None;
  Databases.isDefault := Some true;
  Databases.showTableNamesOnly := None
|}.

Definition staging_database : Databases.StoredDatabase := {|
  Databases.id := "db_2";
  Databases.name := "Staging";
  Databases.type := Databases.postgres;
  Databases.connectionString := "postgresql://app@staging.internal:5432/shop";
  Databases.lastSyncedAt := None;
  Databases.isDefault := None;
  Databases.showTableNamesOnly := None
|}.

Definition two_databases : Databases.DatabaseRegistry := {|
  Databases.databases := [shop_database; staging_database];
  Databases.defaultId := Some "db_1"
|}.

End Samples.

(** * Properties *)

(** ** Orders induced by comparisons *)

Section cmp_facts.
Context {K : Type} `{CmpLaws K}.

Lemma cmp_refl (x : K) : cmp x x = Eq.
Proof.
  pose proof (cmp_antisym x x) as E.
  destruct (cmp x x); simpl in E; congruence.
Qed.

Lemma cmp_eq_sym (x y : K) : cmp x y = Eq → cmp y x = Eq.
Proof. intros E. by rewrite cmp_antisym, E. Qed.

Lemma cmp_eq_r (x y z : K) : cmp y z = Eq → cmp x y = cmp x z.
Proof.
  intros E. rewrite (cmp_antisym y x), (cmp_antisym z x).
  f_equal. by apply cmp_eq_l.
Qed.

Lemma cmp_le_trans (x y z : K) :
  cmp x y ≠ Gt → cmp y z ≠ Gt → cmp x z ≠ Gt.
Proof.
  intros Hxy Hyz.
  destruct (cmp x y) eqn:Exy; [| |done].
  - by rewrite (cmp_eq_l _ _ _ Exy).
  - destruct (cmp y z) eqn:Eyz; [| |done].
    + by rewrite <-(cmp_eq_r _ _ _ Eyz), Exy.
    + by rewrite (cmp_lt_trans _ _ _ Exy Eyz).
Qed.

Lemma cmp_le_total (x y : K) : cmp x y ≠ Gt ∨ cmp y x ≠ Gt.
Proof.
  rewrite (cmp_antisym x y). destruct (cmp x y); simpl; auto.
Qed.
End cmp_facts.

Global Instance string_cmp_laws : CmpLaws string.
Proof.
  split; unfold cmp, string_cmp.
  - intros x y. apply String.compare_antisym.
  - intros x y z Hxy Hyz.
    assert (String.le x z) as Hle.
    { transitivity y; unfold String.le, String.leb; [by rewrite Hxy | by rewrite Hyz]. }
    unfold String.le, String.leb in Hle.
    destruct (String.compare x z) eqn:E; [|done|done].
    apply String.compare_eq_iff in E as ->.
    rewrite String.compare_antisym, Hyz in Hxy. done.
  - intros x y z E. by apply String.compare_eq_iff in E as ->.
Qed.

Global Instance string_cmp_leibniz : CmpLeibniz string.
Proof. intros x y. apply String.compare_eq_iff. Qed.

Global Instance Z_cmp_laws : CmpLaws Z.
Proof.
  split; unfold cmp, Z_cmp.
  - intros x y. apply Z.compare_antisym.
  - intros x y z. rewrite !Z.compare_lt_iff. lia.
  - intros x y z E. by apply Z.compare_eq in E as ->.
Qed.

Global Instance Z_cmp_leibniz : CmpLeibniz Z.
Proof. intros x y. apply Z.compare_eq. Qed.

Global Instance Qc_cmp_laws : CmpLaws Qc.
Proof.
  split; unfold cmp, Qc_cmp.
  - intros x y. unfold Qccompare. symmetry. apply Qcompare_antisym.
  - intros x y z. rewrite <-!Qclt_alt. apply Qclt_trans.
  - intros x y z E. by apply Qceq_alt in E as ->.
Qed.

Global Instance Qc_cmp_leibniz : CmpLeibniz Qc.
Proof. intros x y. apply Qceq_alt. Qed.

Global Instance prod_cmp_laws {A B} `{CmpLaws A, CmpLaws B} : CmpLaws (A * B).
Proof.
  split; unfold cmp, prod_cmp, lex.
  - intros [a1 b1] [a2 b2]; simpl.
    rewrite (cmp_antisym a1 a2), (cmp_antisym b1 b2).
    by destruct (cmp a1 a2).
  - intros [a1 b1] [a2 b2] [a3 b3]; simpl.
    destruct (cmp a1 a2) eqn:E12; [|intros _|done].
    + rewrite (cmp_eq_l _ _ _ E12).
      destruct (cmp a2 a3); [|done|done]. apply cmp_lt_trans.
    + destruct (cmp a2 a3) eqn:E23; [intros _| intros _|done].
      * by rewrite <-(cmp_eq_r _ _ _ E23), E12.
      * by rewrite (cmp_lt_trans _ _ _ E12 E23).
  - intros [a1 b1] [a2 b2] [a3 b3]; simpl.
    destruct (cmp a1 a2) eqn:E12; [|done|done].
    intros E. rewrite (cmp_eq_l _ _ _ E12).
    destruct (cmp a2 a3); [|done|done]. by apply cmp_eq_l.
Qed.

Global Instance prod_cmp_leibniz {A B} `{CmpLeibniz A, CmpLeibniz B} : CmpLeibniz (A * B).
Proof.
  intros [a1 b1] [a2 b2]. unfold cmp, prod_cmp, lex; simpl.
  destruct (cmp a1 a2) eqn:E; [|done|done].
  intros E'. f_equal; by apply cmp_eq_leibniz.
Qed.

Section sort_by_facts.
Context {A K : Type} `{CmpLaws K} (key : A → K).

Global Instance le_by_total : Total (le_by key).
Proof. intros x y. apply cmp_le_total. Qed.

Global Instance le_by_trans : Transitive (le_by key).
Proof. intros x y z. apply cmp_le_trans. Qed.

Global Instance le_by_refl : Reflexive (le_by key).
Proof. intros x. unfold le_by. by rewrite cmp_refl. Qed.

Lemma sort_by_sorted (l : list A) : StronglySorted (le_by key) (sort_by key l).
Proof. apply StronglySorted_merge_sort; apply _. Qed.

Lemma sort_by_perm (l : list A) : sort_by key l ≡ₚ l.
Proof. apply merge_sort_Permutation. Qed.

Lemma elem_of_sort_by (x : A) (l : list A) : x ∈ sort_by key l ↔ x ∈ l.
Proof. by rewrite sort_by_perm. Qed.

Lemma sort_by_Forall (P : A → Prop) (l : list A) :
  Forall P l → Forall P (sort_by key l).
Proof. by rewrite sort_by_perm. Qed.
End sort_by_facts.

Section sort_by_canonical.
Context {A K : Type} `{CmpLaws K} (key : A → K).

Lemma le_by_both_eq (x y : A) :
  le_by key x y → le_by key y x → cmp (key x) (key y) = Eq.
Proof.
  unfold le_by. rewrite (cmp_antisym (key x) (key y)).
  destruct (cmp (key x) (key y)); simpl; done.
Qed.

(** Rows on which the key does not tie have one sorted arrangement. *)
Lemma sort_by_canonical (l l' : list A) :
  (∀ x y, x ∈ l → y ∈ l → cmp (key x) (key y) = Eq → x = y) →
  l ≡ₚ l' →
  sort_by key l = sort_by key l'.
Proof.
  intros Hinj Hperm.
  apply (StronglySorted_unique_strong (le_by key)).
  - intros x y Hx Hy Hxy Hyx.
    apply Hinj; [by apply elem_of_sort_by in Hx | | by apply le_by_both_eq].
    apply elem_of_sort_by in Hy. by rewrite Hperm.
  - apply sort_by_sorted.
  - apply sort_by_sorted.
  - by rewrite !sort_by_perm.
Qed.

Lemma sort_by_filter_canonical `{!CmpLeibniz K} (P : A → Prop) `{∀ x, Decision (P x)}
    (l l' : list A) :
  (∀ x y, x ∈ l → y ∈ l → P x → P y → key x = key y → x = y) →
  l ≡ₚ l' →
  sort_by key (filter P l) = sort_by key (filter P l').
Proof.
  intros Hinj Hperm. apply sort_by_canonical.
  - intros x y [Px Hx]%list_elem_of_filter [Py Hy]%list_elem_of_filter E.
    apply Hinj; try done. by apply cmp_eq_leibniz.
  - by rewrite Hperm.
Qed.

End sort_by_canonical.

Lemma NoDup_fmap_inj_on {A B} (f : A → B) (l : list A) :
  NoDup (f <$> l) → ∀ x y, x ∈ l → y ∈ l → f x = f y → x = y.
Proof.
  induction l as [|a l IH]; simpl; intros Hnd x y Hx Hy E.
  - by apply elem_of_nil in Hx.
  - apply NoDup_cons in Hnd as [Ha Hnd].
    apply elem_of_cons in Hx as [->|Hx]; apply elem_of_cons in Hy as [->|Hy].
    + done.
    + exfalso. apply Ha. rewrite E. by apply list_elem_of_fmap_2.
    + exfalso. apply Ha. rewrite <-E. by apply list_elem_of_fmap_2.
    + by apply IH.
Qed.

(** ** The catalog reader ([src/lib/pg-schema.ts]) *)

Section catalog_reader.
Import PgSchema Fixtures.

Lemma Forall_filter_holds {A} (P : A → Prop) `{∀ x, Decision (P x)} (l : list A) :
  Forall P (filter P l).
Proof. apply Forall_forall. intros x Hx. by apply list_elem_of_filter in Hx as [? _]. Qed.

(** A fulfilled read ran all seven statements, and carries exactly their
    seven results. *)
Lemma fetchSchemaData_Ok_inv (client : Client) (s : SchemaData) :
  fetchSchemaData client = Js.Ok s →
  (∀ stmt, failure client stmt = None)
  ∧ s = {| tables := TABLES_QUERY (database client);
           columns := COLUMNS_QUERY (database client);
           enums := ENUMS_QUERY (database client);
           primaryKeys := PRIMARY_KEYS_QUERY (database client);
           uniques := UNIQUES_QUERY (database client);
           foreignKeys := FOREIGN_KEYS_QUERY (database client);
           indexes := INDEXES_QUERY (database client) |}.
Proof.
  unfold fetchSchemaData, query, mbind, result_bind, Js.bind.
  destruct (failure client Tables) eqn:E1; [done|].
  destruct (failure client Columns) eqn:E2; [done|].
  destruct (failure client Enums) eqn:E3; [done|].
  destruct (failure client PrimaryKeys) eqn:E4; [done|].
  destruct (failure client Uniques) eqn:E5; [done|].
  destruct (failure client ForeignKeys) eqn:E6; [done|].
  destruct (failure client Indexes) eqn:E7; [done|].
  intros [= <-]. split; [|done]. by intros [].
Qed.

Lemma fetchSchemaData_Throw_inv (client : Client) (e : Js.thrown) :
  fetchSchemaData client = Js.Throw e → ∃ stmt, failure client stmt = Some e.
Proof.
  unfold fetchSchemaData, query, mbind, result_bind, Js.bind.
  destruct (failure client Tables) eqn:E1; [intros [= <-]; eauto|].
  destruct (failure client Columns) eqn:E2; [intros [= <-]; eauto|].
  destruct (failure client Enums) eqn:E3; [intros [= <-]; eauto|].
  destruct (failure client PrimaryKeys) eqn:E4; [intros [= <-]; eauto|].
  destruct (failure client Uniques) eqn:E5; [intros [= <-]; eauto|].
  destruct (failure client ForeignKeys) eqn:E6; [intros [= <-]; eauto|].
  destruct (failure client Indexes) eqn:E7; [intros [= <-]; eauto|].
  done.
Qed.

(** C1. [fetchSchemaData] is all or nothing.  When none of the seven
    statements fails, the read is fulfilled with the snapshot of all seven
    results; a fulfilled read never carries anything else; and when any
    statement fails, the read is rejected with a single reason, the
    failure of one of the statements, and no snapshot. *)
Theorem fetchSchemaData_all_or_nothing (client : Client) :
  ((∀ stmt, failure client stmt = None) →
     fetchSchemaData client =
       Js.Ok {| tables := TABLES_QUERY (database client);
                columns := COLUMNS_QUERY (database client);
                enums := ENUMS_QUERY (database client);
                primaryKeys := PRIMARY_KEYS_QUERY (database client);
                uniques := UNIQUES_QUERY (database client);
                foreignKeys := FOREIGN_KEYS_QUERY (database client);
                indexes := INDEXES_QUERY (database client) |})
  ∧ (∀ s, fetchSchemaData client = Js.Ok s →
       (∀ stmt, failure client stmt = None)
       ∧ tables s = TABLES_QUERY (database client)
       ∧ columns s = COLUMNS_QUERY (database client)
       ∧ enums s = ENUMS_QUERY (database client)
       ∧ primaryKeys s = PRIMARY_KEYS_QUERY (database client)
       ∧ uniques s = UNIQUES_QUERY (database client)
       ∧ foreignKeys s = FOREIGN_KEYS_QUERY (database client)
       ∧ indexes s = INDEXES_QUERY (database client))
  ∧ (∀ stmt e0, failure client stmt = Some e0 →
       ∃ stmt' e, failure client stmt' = Some e
                  ∧ fetchSchemaData client = Js.Throw e).
Proof.
  split; [|split].
  - intros Hnone. unfold fetchSchemaData, query, mbind, result_bind, Js.bind.
    by rewrite !Hnone.
  - intros s Hs. apply fetchSchemaData_Ok_inv in Hs as [Hnone ->]. by repeat split.
  - intros stmt e0 Hfail.
    destruct (fetchSchemaData client) as [s|e] eqn:E.
    + apply fetchSchemaData_Ok_inv in E as [Hnone _]. by rewrite Hnone in Hfail.
    + apply fetchSchemaData_Throw_inv in E as [stmt' ?]. eauto.
Qed.

Lemma fetchSchemaData_all_or_nothing_witness :
  (∀ stmt, failure shop_client stmt = None)
  ∧ (∃ s, fetchSchemaData shop_client = Js.Ok s
          ∧ tables s = TABLES_QUERY shop_db ∧ indexes s = INDEXES_QUERY shop_db)
  ∧ failure denied_client Columns
      = Some (Js.ErrorObject "permission denied for table columns")
  ∧ (∃ stmt' e, failure denied_client stmt' = Some e
                ∧ fetchSchemaData denied_client = Js.Throw e).
Proof.
  destruct (fetchSchemaData_all_or_nothing shop_client) as (Hall & _ & _).
  destruct (fetchSchemaData_all_or_nothing denied_client) as (_ & _ & Hfail).
  split; [reflexivity|]. split.
  - eexists. split; [apply Hall; reflexivity|]. split; reflexivity.
  - split; [reflexivity|]. apply (Hfail Columns _ eq_refl).
Defined.

(** C8. Every row of a fulfilled read lies outside the system schemas
    [pg_catalog] and [information_schema], and every relation row is a
    base table or a view. *)
Theorem fetchSchemaData_user_namespaces (client : Client) (s : SchemaData) :
  fetchSchemaData client = Js.Ok s →
  Forall (λ r, (TableRow.table_schema r ∉ ["pg_catalog"; "information_schema"])
               ∧ (TableRow.table_type r = "BASE TABLE" ∨ TableRow.table_type r = "VIEW"))
    (tables s)
  ∧ Forall (λ r, ColumnRow.table_schema r ∉ ["pg_catalog"; "information_schema"]) (columns s)
  ∧ Forall (λ r, EnumTypeRow.nspname r ∉ ["pg_catalog"; "information_schema"]) (enums s)
  ∧ Forall (λ r, PrimaryKeyRow.table_schema r ∉ ["pg_catalog"; "information_schema"])
      (primaryKeys s)
  ∧ Forall (λ r, UniqueRow.table_schema r ∉ ["pg_catalog"; "information_schema"]) (uniques s)
  ∧ Forall (λ r, ForeignKeyRow.table_schema r ∉ ["pg_catalog"; "information_schema"])
      (foreignKeys s)
  ∧ Forall (λ r, IndexRow.schemaname r ∉ ["pg_catalog"; "information_schema"]) (indexes s).
Proof.
  intros Hs. apply fetchSchemaData_Ok_inv in Hs as [_ ->]. simpl.
  repeat split.
  - apply sort_by_Forall. eapply Forall_impl; [apply Forall_filter_holds|].
    intros r [Hschema Htype]. split; [done|].
    set_unfold in Htype. tauto.
  - apply sort_by_Forall, Forall_filter_holds.
  - apply sort_by_Forall, Forall_fmap.
    eapply Forall_impl; [apply Forall_filter_holds|]. by intros j [_ ?].
  - apply sort_by_Forall, Forall_fmap.
    eapply Forall_impl; [apply Forall_filter_holds|]. by intros j [_ ?].
  - apply sort_by_Forall, Forall_fmap.
    eapply Forall_impl; [apply Forall_filter_holds|]. by intros j [_ ?].
  - apply sort_by_Forall, Forall_fmap, Forall_filter_holds.
  - apply sort_by_Forall, Forall_filter_holds.
Qed.

Lemma fetchSchemaData_user_namespaces_witness :
  fetchSchemaData shop_client = Js.Ok (snapshot_of shop_db)
  ∧ Forall (λ r, (TableRow.table_schema r ∉ ["pg_catalog"; "information_schema"])
                 ∧ (TableRow.table_type r = "BASE TABLE" ∨ TableRow.table_type r = "VIEW"))
      (TABLES_QUERY shop_db)
  ∧ Forall (λ r, ColumnRow.table_schema r ∉ ["pg_catalog"; "information_schema"])
      (COLUMNS_QUERY shop_db).
Proof.
  split; [reflexivity|].
  destruct (fetchSchemaData_user_namespaces shop_client _ eq_refl) as (Ht & Hc & _).
  split; [exact Ht | exact Hc].
Defined.

(** C2, as stated, fails on the index rows: the statement orders them by
    schema and relation only, so nothing orders two indexes of
    [public.users] among themselves: here they come back against both
    their names and their definitions, and the other way round from a
    catalog that lists them the other way round. *)
Lemma index_rows_not_sorted_by_secondary_key :
  fetchSchemaData shop_client = Js.Ok (snapshot_of shop_db)
  ∧ indexes (snapshot_of shop_db) = [users_name_idx; users_email_idx]
  ∧ ¬ Sorted (le_by (λ r, (IndexRow.schemaname r,
                           (IndexRow.tablename r, IndexRow.indexname r))))
        (indexes (snapshot_of shop_db))
  ∧ ¬ Sorted (le_by (λ r, (IndexRow.schemaname r,
                           (IndexRow.tablename r, IndexRow.indexdef r))))
        (indexes (snapshot_of shop_db))
  ∧ indexes (snapshot_of shop_db_reindexed) = [users_email_idx; users_name_idx].
Proof.
  split; [reflexivity|]. split; [reflexivity|].
  split; [|split; [|reflexivity]].
  - intros Hs. inversion Hs as [|x l _ Hhd]; subst.
    inversion Hhd as [|y l' Hle]; subst. by vm_compute in Hle.
  - intros Hs. inversion Hs as [|x l _ Hhd]; subst.
    inversion Hhd as [|y l' Hle]; subst. by vm_compute in Hle.
Qed.

(** C2, amended.  Each collection of a fulfilled read is sorted on the
    keys of its own ORDER BY clause: relations by schema and name; columns
    by schema, relation and ordinal position; enum labels by type schema,
    type name and sort order; primary-key columns by schema, relation and
    ordinal position; unique and foreign-key columns by schema, relation,
    constraint name and ordinal position; index definitions by schema and
    relation only. *)
Theorem fetchSchemaData_sorted (client : Client) (s : SchemaData) :
  fetchSchemaData client = Js.Ok s →
  StronglySorted (le_by (λ r, (TableRow.table_schema r, TableRow.table_name r))) (tables s)
  ∧ StronglySorted
      (le_by (λ r, (ColumnRow.table_schema r,
                    (ColumnRow.table_name r, ColumnRow.ordinal_position r))))
      (columns s)
  ∧ StronglySorted
      (le_by (λ r, (EnumTypeRow.nspname r,
                    (EnumTypeRow.typname r, EnumTypeRow.enumsortorder r))))
      (enums s)
  ∧ StronglySorted
      (le_by (λ r, (PrimaryKeyRow.table_schema r,
                    (PrimaryKeyRow.table_name r, PrimaryKeyRow.ordinal_position r))))
      (primaryKeys s)
  ∧ StronglySorted
      (le_by (λ r, (UniqueRow.table_schema r,
                    (UniqueRow.table_name r,
                     (UniqueRow.constraint_name r, UniqueRow.ordinal_position r)))))
      (uniques s)
  ∧ StronglySorted
      (le_by (λ r, (ForeignKeyRow.table_schema r,
                    (ForeignKeyRow.table_name r,
                     (ForeignKeyRow.constraint_name r, ForeignKeyRow.ordinal_position r)))))
      (foreignKeys s)
  ∧ StronglySorted (le_by (λ r, (IndexRow.schemaname r, IndexRow.tablename r))) (indexes s).
Proof.
  intros Hs. apply fetchSchemaData_Ok_inv in Hs as [_ ->]. simpl.
  repeat split; apply sort_by_sorted.
Qed.

Lemma fetchSchemaData_sorted_witness :
  fetchSchemaData shop_client = Js.Ok (snapshot_of shop_db)
  ∧ StronglySorted
      (le_by (λ r, (ColumnRow.table_schema r,
                    (ColumnRow.table_name r, ColumnRow.ordinal_position r))))
      (columns (snapshot_of shop_db))
  ∧ StronglySorted (le_by (λ r, (IndexRow.schemaname r, IndexRow.tablename r)))
      (indexes (snapshot_of shop_db)).
Proof.
  split; [reflexivity|].
  destruct (fetchSchemaData_sorted shop_client _ eq_refl) as (_ & Hc & _ & _ & _ & _ & Hi).
  split; [exact Hc | exact Hi].
Defined.

End catalog_reader.

(** ** The schema cache ([src/lib/cache.ts]) *)

Section schema_cache.
Import Cache Fixtures.

(** [readSchemaCache] returns on every file: whatever the body throws is
    caught. *)
Lemma readSchemaCache_returns (cacheFile : Fs.file) :
  ∃ r, readSchemaCache cacheFile = Js.Ok r.
Proof.
  unfold readSchemaCache, Js.try_catch.
  match goal with |- ∃ r, match ?body with _ => _ end = _ => destruct body end; eauto.
Qed.

Lemma readSchemaCache_null_cases (cacheFile : Fs.file) :
  match cacheFile with
  | Fs.Absent | Fs.Unreadable _ | Fs.Readable (Json.Malformed _) =>
      readSchemaCache cacheFile = Js.Ok None
  | Fs.Readable (Json.Encodes data) =>
      readSchemaCache cacheFile =
        Js.Ok (match data with
               | Json.Object props =>
                   if bool_decide (Json.typeof (Json.lookup_prop "tables" props) = "object")
                   then Some data else None
               | _ => None
               end)
  end.
Proof.
  destruct cacheFile as [|e|[raw|data]]; try reflexivity.
  unfold readSchemaCache; simpl.
  destruct data as [|b|n|s|items|props]; simpl; try reflexivity.
  - by destruct b.
  - unfold mbind, result_bind; simpl.
    by destruct (PrimFloat.eqb n 0 || negb (PrimFloat.eqb n n)).
  - unfold mbind, result_bind; simpl. by destruct (bool_decide (s = "")).
  - unfold mbind, result_bind; simpl.
    destruct (Json.lookup_prop "tables" props) as [[]|]; reflexivity.
Qed.

(** C10, at the file [{"tables": null}]: the text parses to an object whose
    [tables] is [null], which is not an object, yet [typeof null] is
    ["object"] and the parsed value is returned instead of [null]. *)
Theorem readSchemaCache_null_tables :
  Json.get (Json.Object [("tables", Json.Null)]) "tables" = Js.Ok (Some Json.Null)
  ∧ Json.is_object (Some Json.Null) = false
  ∧ readSchemaCache null_tables_file
      = Js.Ok (Some (Json.Object [("tables", Json.Null)])).
Proof. repeat split. Qed.

End schema_cache.

(** ** The exclusion rules ([src/lib/exclusion.ts]) *)

Section exclusion_rules.
Import Exclusion Fixtures.
Context (engine : RegExpEngine).

Lemma regex_rule_returns (rule : ExclusionRule) (tableKey : string) :
  ∃ hit : bool,
    Js.try_catch
      (re ← compile engine (pattern rule); mret (test engine re tableKey))
      (λ _, mret false) = Js.Ok hit.
Proof.
  unfold Js.try_catch, mbind, result_bind, Js.bind.
  destruct (compile engine (pattern rule)); eauto.
Qed.

Lemma isTableExcluded_returns (tableKey : string) (rules : list ExclusionRule) :
  ∃ b, isTableExcluded engine tableKey rules = Js.Ok b.
Proof.
  induction rules as [|rule rest [b IH]]; simpl; [by eexists|].
  destruct (type rule).
  - destruct (regex_rule_returns rule tableKey) as [hit ->].
    destruct hit; simpl; eauto.
  - simpl. destruct (includes tableKey (pattern rule)); simpl; eauto.
  - simpl. destruct (negb (includes tableKey (pattern rule))); simpl; eauto.
Qed.

Lemma array_filter_returns {T} (keep : T → Js.Result bool) (items : list T) :
  (∀ item, ∃ b, keep item = Js.Ok b) →
  ∃ kept, array_filter keep items = Js.Ok kept.
Proof.
  intros Hkeep. induction items as [|item rest [kept IH]]; simpl; [by eexists|].
  destruct (Hkeep item) as [b ->]. simpl. rewrite IH. simpl. eauto.
Qed.

End exclusion_rules.

(** C9. [isTableExcluded] returns a boolean for every key and every list
    of rules; a regex rule whose pattern the engine rejects is passed over,
    so the answer is that of the remaining rules, and [false] when it is the
    only rule; [filterTables] returns a list for every input. *)
Theorem isTableExcluded_never_throws (engine : Exclusion.RegExpEngine) :
  (∀ tableKey rules, ∃ b, Exclusion.isTableExcluded engine tableKey rules = Js.Ok b)
  ∧ (∀ tableKey rule rules e,
       Exclusion.type rule = Exclusion.regex →
       Exclusion.compile engine (Exclusion.pattern rule) = Js.Throw e →
       Exclusion.isTableExcluded engine tableKey (rule :: rules)
         = Exclusion.isTableExcluded engine tableKey rules
       ∧ Exclusion.isTableExcluded engine tableKey [rule] = Js.Ok false)
  ∧ (∀ T (key : T → string) items rules,
       ∃ kept, Exclusion.filterTables engine key items rules = Js.Ok kept).
Proof.
  split; [|split].
  - apply isTableExcluded_returns.
  - intros tableKey rule rules e Hty Hbad.
    split; simpl; rewrite Hty, Hbad; reflexivity.
  - intros T key items rules. unfold Exclusion.filterTables.
    destruct (decide _); [by eexists|].
    apply array_filter_returns. intros item.
    destruct (isTableExcluded_returns engine (key item) rules) as [b ->].
    by eexists.
Qed.

Lemma isTableExcluded_never_throws_witness :
  Exclusion.type Fixtures.broken_rule = Exclusion.regex
  ∧ Exclusion.compile Fixtures.literal_engine (Exclusion.pattern Fixtures.broken_rule)
      = Js.Throw (Js.ErrorObject "Invalid regular expression: /(/: Unterminated group")
  ∧ Exclusion.isTableExcluded Fixtures.literal_engine "hdb_catalog.event_log"
      [Fixtures.broken_rule; Fixtures.hdb_rule]
      = Exclusion.isTableExcluded Fixtures.literal_engine "hdb_catalog.event_log"
          [Fixtures.hdb_rule]
  ∧ Exclusion.isTableExcluded Fixtures.literal_engine "public.users" [Fixtures.broken_rule]
      = Js.Ok false.
Proof.
  destruct (isTableExcluded_never_throws Fixtures.literal_engine) as (_ & Hskip & _).
  split; [reflexivity|]. split; [reflexivity|]. split.
  - apply (Hskip "hdb_catalog.event_log" Fixtures.broken_rule [Fixtures.hdb_rule] _
             eq_refl eq_refl).
  - apply (Hskip "public.users" Fixtures.broken_rule [] _ eq_refl eq_refl).
Defined.

(** ** The sync command *)

Section sync_command.
Import SyncSchema Fixtures.
Context (buildSchemaDdl : PgSchema.SchemaData → DdlBuilder.SchemaDdl).

(** The world after the [catch] block and the [finally] block, when the
    [try] block threw [e] before any effect. *)
Lemma sync_after_throw (a : Attempt) (w : World) (e : Js.thrown) :
  config a = Js.Ok () →
  (connect a = Js.Throw e
   ∨ ∃ client, connect a = Js.Ok client
               ∧ cancelled a AfterConnect = false
               ∧ PgSchema.fetchSchemaData client = Js.Throw e) →
  (sync buildSchemaDdl a w).2 =
    if cancelled a InCatch then w
    else {| state := error; errorMessage := Some (message_of e);
            tableCount := tableCount w;
            toasts := (toasts w ++ [{| style := Failure; title := "Sync failed";
                                       message := message_of e |}])%list;
            cacheFile := cacheFile w; written := written w |}.
Proof.
  intros Hconfig Hfail.
  unfold sync, task_bind, try_finally, try_catch, await. rewrite Hconfig.
  destruct Hfail as [-> | (client & -> & -> & ->)];
    destruct (cancelled a InCatch), (end_failure a); reflexivity.
Qed.

(** C6, amended.  When connecting fails, or the connection succeeds, the
    view is still open and a catalog statement fails, [writeSchemaCache] is
    not called and the cache file is what it was, so [readSchemaCache]
    answers as before; and unless the view has been closed by the time the
    failure is caught, the state becomes ["error"], the error message is
    the message of the failure and a failure toast carries it. *)
Theorem sync_failure_keeps_cache (a : Attempt) (w : World) (e : Js.thrown) :
  config a = Js.Ok () →
  (connect a = Js.Throw e
   ∨ ∃ client, connect a = Js.Ok client
               ∧ cancelled a AfterConnect = false
               ∧ PgSchema.fetchSchemaData client = Js.Throw e) →
  written (sync buildSchemaDdl a w).2 = written w
  ∧ cacheFile (sync buildSchemaDdl a w).2 = cacheFile w
  ∧ Cache.readSchemaCache (cacheFile (sync buildSchemaDdl a w).2)
      = Cache.readSchemaCache (cacheFile w)
  ∧ (cancelled a InCatch = false →
       state (sync buildSchemaDdl a w).2 = error
       ∧ errorMessage (sync buildSchemaDdl a w).2 = Some (message_of e)
       ∧ toasts (sync buildSchemaDdl a w).2
           = (toasts w ++ [{| style := Failure; title := "Sync failed";
                              message := message_of e |}])%list).
Proof.
  intros Hconfig Hfail. rewrite (sync_after_throw a w e Hconfig Hfail).
  destruct (cancelled a InCatch); repeat split; intros; done.
Qed.

End sync_command.

(** C6, as stated, fails when the view is closed while the connection is
    being refused: nothing is reported, the state stays ["loading"]. *)
Lemma sync_failure_not_reported_after_close :
  SyncSchema.connect Fixtures.refused_after_close
    = Js.Throw (Js.ErrorObject "connect ECONNREFUSED 127.0.0.1:5432")
  ∧ SyncSchema.state
      (SyncSchema.sync DdlBuilder.buildSchemaDdl Fixtures.refused_after_close
            Fixtures.loading_world).2 = SyncSchema.loading
  ∧ SyncSchema.errorMessage
      (SyncSchema.sync DdlBuilder.buildSchemaDdl Fixtures.refused_after_close
            Fixtures.loading_world).2 = None
  ∧ SyncSchema.toasts
      (SyncSchema.sync DdlBuilder.buildSchemaDdl Fixtures.refused_after_close
            Fixtures.loading_world).2 = []
  ∧ ¬ (SyncSchema.state
         (SyncSchema.sync DdlBuilder.buildSchemaDdl Fixtures.refused_after_close
            Fixtures.loading_world).2 = SyncSchema.error).
Proof. repeat split. intros [=]. Qed.

Lemma sync_failure_keeps_cache_witness :
  SyncSchema.config Fixtures.denied_attempt = Js.Ok ()
  ∧ PgSchema.fetchSchemaData Fixtures.denied_client
      = Js.Throw (Js.ErrorObject "permission denied for table columns")
  ∧ SyncSchema.written
      (SyncSchema.sync DdlBuilder.buildSchemaDdl Fixtures.denied_attempt
         Fixtures.loading_world).2 = []
  ∧ SyncSchema.errorMessage
      (SyncSchema.sync DdlBuilder.buildSchemaDdl Fixtures.denied_attempt
         Fixtures.loading_world).2 = Some "permission denied for table columns".
Proof.
  split; [reflexivity|]. split; [reflexivity|].
  destruct (sync_failure_keeps_cache DdlBuilder.buildSchemaDdl Fixtures.denied_attempt
              Fixtures.loading_world
              (Js.ErrorObject "permission denied for table columns") eq_refl)
    as (Hw & _ & _ & Hreport).
  { right. exists Fixtures.denied_client. repeat split. }
  split; [exact Hw|]. by destruct (Hreport eq_refl) as (_ & -> & _).
Defined.

(** ** The persisted entries *)

Section persisted_entries.
Import SyncSchema.

(** The first piece of [key.split(".")] has no separator, and is the key
    itself or what precedes the first separator of the key. *)
Lemma split_dot_head (key : string) :
  ∃ first others,
    split "." key = first :: others
    ∧ (∀ a b, first ≠ a ++ String "." b)
    ∧ ((others = [] ∧ key = first) ∨ ∃ rest, key = first ++ String "." rest).
Proof.
  induction key as [|c key (first & others & Hsplit & Hnodot & Hkey)].
  - exists "", []. split; [done|]. split; [|by left].
    intros [|??] b; discriminate.
  - simpl. destruct (Ascii.eqb c ".") eqn:Hc.
    + apply Ascii.eqb_eq in Hc as ->.
      exists "", (split "." key). split; [done|]. split.
      * intros [|??] b; discriminate.
      * right. by exists key.
    + apply Ascii.eqb_neq in Hc. rewrite Hsplit.
      exists (String c first), others. split; [done|]. split.
      * intros [|c' a] b; simpl; intros [= ? ?]; [done|]. by eapply Hnodot.
      * destruct Hkey as [[-> ->] | [rest ->]]; [by left|].
        right. by exists rest.
Qed.

(** Whatever the loop leaves under a key was stored for that key. *)
Lemma foldl_assign_lookup (tableTypes : gmap string Cache.Kind)
    (entries : list (string * string)) (acc : gmap string Cache.TableCacheEntry)
    (key : string) (entry : Cache.TableCacheEntry) :
  foldl (λ tables e, assign e.1 (cache_entry tableTypes e.1 e.2) tables) acc entries !! key
    = Some entry →
  acc !! key = Some entry
  ∨ ∃ ddl, (key, ddl) ∈ entries ∧ entry = cache_entry tableTypes key ddl.
Proof.
  revert acc. induction entries as [|[k d] entries IH]; intros acc; simpl; [by left|].
  intros Hlook. apply IH in Hlook as [Hacc | (ddl & Hin & ->)].
  - unfold assign in Hacc. destruct (decide (k = "__proto__")); [by left|].
    destruct (decide (k = key)) as [->|Hne].
    + rewrite lookup_insert_eq in Hacc. injection Hacc as <-.
      right. exists d. split; [left|done].
    + rewrite lookup_insert_ne in Hacc by done. by left.
  - right. exists ddl. split; [by right|done].
Qed.

Lemma cache_tables_lookup (tableDdls : gmap string string)
    (tableTypes : gmap string Cache.Kind) (key : string) (entry : Cache.TableCacheEntry) :
  cache_tables tableDdls tableTypes !! key = Some entry →
  ∃ ddl, tableDdls !! key = Some ddl ∧ entry = cache_entry tableTypes key ddl.
Proof.
  intros Hlook. apply foldl_assign_lookup in Hlook as [Hempty | (ddl & Hin & ->)].
  - by rewrite lookup_empty in Hempty.
  - exists ddl. split; [|done]. by apply elem_of_map_to_list.
Qed.

(** C7. When a sync goes through, the cache handed to [writeSchemaCache]
    and written to the file keeps, in every entry, the DDL of its key, a
    schema field that is the part of the key before its first ["."] (the
    whole key when it has none), and a type field that is the kind mapping's
    value for the key; both fields are properties of the entry's JSON. *)
Theorem sync_persists_schema_and_kind
    (buildSchemaDdl : PgSchema.SchemaData → DdlBuilder.SchemaDdl)
    (a : Attempt) (w : World) (client : PgSchema.Client) (data : PgSchema.SchemaData) :
  config a = Js.Ok () →
  connect a = Js.Ok client →
  cancelled a AfterConnect = false →
  PgSchema.fetchSchemaData client = Js.Ok data →
  cancelled a AfterFetch = false →
  write_failure a = None →
  ∃ cache,
    written (sync buildSchemaDdl a w).2 = (written w ++ [cache])%list
    ∧ cacheFile (sync buildSchemaDdl a w).2
        = Fs.Readable (Json.stringify (Cache.cache_json cache))
    ∧ ∀ key entry,
        Cache.tables cache !! key = Some entry →
        ∃ schema,
          DdlBuilder.tableDdls (buildSchemaDdl data) !! key = Some (Cache.ddl entry)
          ∧ Cache.schema entry = Some schema
          ∧ (∀ pre post, schema ≠ pre ++ String "." post)
          ∧ (key = schema ∨ ∃ rest, key = schema ++ String "." rest)
          ∧ (∀ k, DdlBuilder.tableTypes (buildSchemaDdl data) !! key = Some k →
                  Cache.type entry = k)
          ∧ Json.get (Cache.entry_json entry) "schema" = Js.Ok (Some (Json.Str schema))
          ∧ Json.get (Cache.entry_json entry) "type"
              = Js.Ok (Some (Cache.kind_json (Cache.type entry))).
Proof.
  intros Hconfig Hconnect Hc1 Hfetch Hc2 Hwrite.
  exists {| Cache.tables :=
              cache_tables (DdlBuilder.tableDdls (buildSchemaDdl data))
                (DdlBuilder.tableTypes (buildSchemaDdl data));
            Cache.enums := None |}.
  unfold sync, task_bind, try_finally, try_catch, await, writeSchemaCache,
    Cache.writeSchemaCache.
  rewrite Hconfig, Hconnect, Hc1, Hfetch, Hc2, Hwrite.
  split; [|split].
  - destruct (cancelled a AfterWrite), (end_failure a); reflexivity.
  - destruct (cancelled a AfterWrite), (end_failure a); reflexivity.
  - intros key entry Hentry. simpl in Hentry.
    apply cache_tables_lookup in Hentry as (ddl & Hddl & ->).
    destruct (split_dot_head key) as (first & others & Hsplit & Hnodot & Hkey).
    exists first. unfold cache_entry; simpl. rewrite Hsplit; simpl.
    repeat split; try done.
    + destruct Hkey as [[_ ->] | Hrest]; [by left | by right].
    + by intros k ->.
Qed.

End persisted_entries.

Lemma sync_persists_schema_and_kind_witness :
  PgSchema.fetchSchemaData Fixtures.shop_client
    = Js.Ok (Fixtures.snapshot_of Fixtures.shop_db)
  ∧ ∃ cache,
      SyncSchema.written
        (SyncSchema.sync DdlBuilder.buildSchemaDdl Fixtures.shop_attempt
           Fixtures.loading_world).2 = [cache]
      ∧ ∃ entry,
          Cache.tables cache !! "public.active_users" = Some entry
          ∧ Cache.schema entry = Some "public"
          ∧ Cache.type entry = Cache.view.
Proof.
  split; [reflexivity|].
  destruct (sync_persists_schema_and_kind DdlBuilder.buildSchemaDdl
              Fixtures.shop_attempt Fixtures.loading_world Fixtures.shop_client
              (Fixtures.snapshot_of Fixtures.shop_db)
              eq_refl eq_refl eq_refl eq_refl eq_refl eq_refl)
    as (cache & Hwritten & _ & _).
  exists cache. split; [exact Hwritten|].
  vm_compute in Hwritten. injection Hwritten as <-.
  eexists. split; [vm_compute; reflexivity|]. split; reflexivity.
Defined.
(** ** The DDL synthesizer (section 4.2 of the design document) *)

Section ddl_synthesizer.
Import DdlBuilder.
















End ddl_synthesizer.


Lemma shop_snapshot_well_formed :
  DdlBuilder.well_formed (Fixtures.snapshot_of Fixtures.shop_db).
Proof. split; apply (bool_decide_unpack _); vm_compute; exact I. Qed.



Lemma reordered_same_rows (s : PgSchema.SchemaData) :
  DdlBuilder.same_rows s (Fixtures.reordered s).
Proof. split; simpl; by rewrite reverse_Permutation. Qed.












(** C5. Every relation of the snapshot has an entry in the kind mapping,
    one value that is ["table"] or ["view"], the kind of a relation with
    that qualified name (of the relation itself when names are not shared):
    ["table"] for a base table and ["view"] otherwise; and every key of the
    DDL mapping is a key of the kind mapping. *)
Theorem kind_mapping_covers_relations (s : PgSchema.SchemaData) :
  (∀ t, t ∈ PgSchema.tables s →
     ∃ k, DdlBuilder.tableTypes (DdlBuilder.buildSchemaDdl s) !! DdlBuilder.relation_key t
            = Some k
          ∧ (k = Cache.table ∨ k = Cache.view)
          ∧ ∃ t', t' ∈ PgSchema.tables s
                  ∧ DdlBuilder.relation_key t' = DdlBuilder.relation_key t
                  ∧ k = (if decide (TableRow.table_type t' = "BASE TABLE")
                         then Cache.table else Cache.view))
  ∧ (∀ t, NoDup (DdlBuilder.relation_key <$> PgSchema.tables s) →
          t ∈ PgSchema.tables s →
          DdlBuilder.tableTypes (DdlBuilder.buildSchemaDdl s) !! DdlBuilder.relation_key t
            = Some (if decide (TableRow.table_type t = "BASE TABLE")
                    then Cache.table else Cache.view))
  ∧ (∀ key, is_Some (DdlBuilder.tableDdls (DdlBuilder.buildSchemaDdl s) !! key) →
            is_Some (DdlBuilder.tableTypes (DdlBuilder.buildSchemaDdl s) !! key)).
Proof.
  split; [|split].
  - intros t Ht. simpl.
    destruct (list_to_map
                ((λ t, (DdlBuilder.relation_key t, DdlBuilder.kind_of t))
                   <$> PgSchema.tables s) !! DdlBuilder.relation_key t)
      as [k|] eqn:E.
    + exists k. split; [done|]. split; [by destruct k; auto|].
      apply elem_of_list_to_map_2 in E.
      apply list_elem_of_fmap in E as (t' & [= Hkey ->] & Ht').
      by exists t'.
    + apply not_elem_of_list_to_map in E. exfalso. apply E.
      rewrite <-list_fmap_compose. by apply (list_elem_of_fmap_2 DdlBuilder.relation_key).
  - intros t Hnd Ht. simpl. apply elem_of_list_to_map_1.
    + by rewrite <-list_fmap_compose.
    + by apply (list_elem_of_fmap_2
                  (λ t, (DdlBuilder.relation_key t, DdlBuilder.kind_of t))).
  - intros key [ddl Hddl]. simpl in *.
    destruct (list_to_map
                ((λ t, (DdlBuilder.relation_key t, DdlBuilder.kind_of t))
                   <$> PgSchema.tables s) !! key) as [k|] eqn:E; [by eexists|].
    apply not_elem_of_list_to_map in E. exfalso. apply E.
    apply elem_of_list_to_map_2 in Hddl.
    apply list_elem_of_fmap in Hddl as (t & [= -> _] & Ht).
    rewrite <-list_fmap_compose. by apply (list_elem_of_fmap_2 DdlBuilder.relation_key).
Qed.

Lemma kind_mapping_covers_relations_witness :
  TableRow.mk "public" "active_users" "VIEW"
    ∈ PgSchema.tables (Fixtures.snapshot_of Fixtures.shop_db)
  ∧ DdlBuilder.tableTypes (DdlBuilder.buildSchemaDdl (Fixtures.snapshot_of Fixtures.shop_db))
      !! "public.active_users" = Some Cache.view
  ∧ is_Some (DdlBuilder.tableDdls
               (DdlBuilder.buildSchemaDdl (Fixtures.snapshot_of Fixtures.shop_db))
             !! "public.active_users").
Proof.
  assert (TableRow.mk "public" "active_users" "VIEW"
            ∈ PgSchema.tables (Fixtures.snapshot_of Fixtures.shop_db))
    as Hin by (apply (bool_decide_unpack _); vm_compute; exact I).
  split; [exact Hin|].
  destruct (kind_mapping_covers_relations (Fixtures.snapshot_of Fixtures.shop_db))
    as (_ & Hkind & _).
  split.
  - apply (Hkind (TableRow.mk "public" "active_users" "VIEW")); [|exact Hin].
    apply shop_snapshot_well_formed.
  - vm_compute. eexists. reflexivity.
Defined.

(** ** The definitions on the sample data *)

Example split_qualified_name :
  SyncSchema.split "." "public.users" = ["public"; "users"]
  ∧ SyncSchema.split "." "users" = ["users"]
  ∧ SyncSchema.split "." "" = [""]
  ∧ SyncSchema.split "." "a.b.c" = ["a"; "b"; "c"].
Proof. repeat split. Qed.

Example includes_substring :
  Exclusion.includes "hdb_catalog.event_log" "hdb_catalog" = true
  ∧ Exclusion.includes "public.users" "hdb_catalog" = false
  ∧ Exclusion.includes "public.users" "" = true.
Proof. repeat split. Qed.

Example exclusion_rules_on_keys :
  Exclusion.isTableExcluded Fixtures.literal_engine "hdb_catalog.event_log"
    [Fixtures.broken_rule; Fixtures.hdb_rule] = Js.Ok true
  ∧ Exclusion.filterTables Fixtures.literal_engine id
      ["public.users"; "hdb_catalog.event_log"; "public.orders"]
      [Fixtures.broken_rule; Fixtures.hdb_rule]
    = Js.Ok ["public.users"; "public.orders"].
Proof. repeat split. Qed.

(** The first end-to-end scenario of the design document: [id] before
    [name], a not-null marker on [id], a length on [name], and a named
    primary-key clause on [id]. *)
Example users_ddl :
  DdlBuilder.tableDdls (DdlBuilder.buildSchemaDdl (Fixtures.snapshot_of Fixtures.shop_db))
    !! "public.users"
  = Some ("create table public.users (" ++ DdlBuilder.nl
          ++ "  id integer not null," ++ DdlBuilder.nl
          ++ "  name character varying(100)," ++ DdlBuilder.nl
          ++ "  constraint users_pkey primary key (id)," ++ DdlBuilder.nl
          ++ "  constraint users_email_key unique (email)" ++ DdlBuilder.nl
          ++ ");" ++ DdlBuilder.nl
          ++ "CREATE INDEX users_name_idx ON public.users USING btree (name);"
          ++ DdlBuilder.nl
          ++ "CREATE INDEX users_email_idx ON public.users USING btree (email);").
Proof. vm_compute. reflexivity. Qed.

(** Constraint groups are taken in the order in which the rows first
    name them. *)
Example group_names_first_named :
  DdlBuilder.group_names ["users_login_key"; "users_email_key"; "users_login_key"]
  = ["users_login_key"; "users_email_key"].
Proof. reflexivity. Qed.

(** The second end-to-end scenario of the design document: one
    foreign-key clause with both local columns and both referenced columns
    in matching order, from rows fed in reverse order. *)
Example shipments_ddl :
  DdlBuilder.tableDdls
    (DdlBuilder.buildSchemaDdl (Samples.shuffled Samples.orders_snapshot))
    !! "public.shipments"
  = Some ("create table public.shipments (" ++ DdlBuilder.nl
          ++ "  order_id integer not null," ++ DdlBuilder.nl
          ++ "  line_no integer not null," ++ DdlBuilder.nl
          ++ "  constraint shipments_line_key unique (order_id, line_no),"
          ++ DdlBuilder.nl
          ++ "  constraint shipments_order_fk foreign key (order_id, line_no) "
          ++ "references orders (id, line_no)" ++ DdlBuilder.nl
          ++ ");" ++ DdlBuilder.nl
          ++ "CREATE INDEX shipments_order_idx ON public.shipments USING btree (order_id);"
          ++ DdlBuilder.nl
          ++ "CREATE INDEX shipments_line_idx ON public.shipments USING btree (line_no);").
Proof. vm_compute. reflexivity. Qed.

(** Enum labels fed in reverse order are rendered by sort order. *)
Example status_labels :
  DdlBuilder.enum_labels
    [ EnumTypeRow.mk "public" "status" "inactive" (Q2Qc 1);
      EnumTypeRow.mk "public" "status" "active" (Q2Qc 0) ] "public" "status"
  = ["active"; "inactive"].
Proof. vm_compute. reflexivity. Qed.

(** A sync that goes through leaves a file that [readSchemaCache] reads
    back as the JSON of the cache it wrote. *)
Example sync_then_read :
  ∃ cache,
    SyncSchema.written
      (SyncSchema.sync DdlBuilder.buildSchemaDdl Fixtures.shop_attempt
         Fixtures.loading_world).2 = [cache]
    ∧ Cache.readSchemaCache
        (SyncSchema.cacheFile
           (SyncSchema.sync DdlBuilder.buildSchemaDdl Fixtures.shop_attempt
              Fixtures.loading_world).2)
      = Js.Ok (Some (Cache.cache_json cache))
    ∧ SyncSchema.state
        (SyncSchema.sync DdlBuilder.buildSchemaDdl Fixtures.shop_attempt
           Fixtures.loading_world).2 = SyncSchema.success
    ∧ SyncSchema.tableCount
        (SyncSchema.sync DdlBuilder.buildSchemaDdl Fixtures.shop_attempt
           Fixtures.loading_world).2 = 3%nat.
Proof. eexists. split; [vm_compute; reflexivity|]. repeat split. Qed.

(** * Further properties of the sources *)

(** ** [isTableExcluded] and [filterTables] as predicates *)

Section exclusion_meaning.
Import Exclusion.
Context (engine : RegExpEngine).

(** What one rule asks of a key. *)
Lemma rule_step_true (rule : ExclusionRule) (tableKey : string) :
  match type rule with
  | regex =>
      Js.try_catch
        (re ← compile engine (pattern rule); mret (test engine re tableKey))
        (λ _, mret false)
  | contains => mret (includes tableKey (pattern rule))
  | not_contains => mret (negb (includes tableKey (pattern rule)))
  end = Js.Ok true
  ↔ match type rule with
    | regex => ∃ re, compile engine (pattern rule) = Js.Ok re
                     ∧ test engine re tableKey = true
    | contains => includes tableKey (pattern rule) = true
    | not_contains => includes tableKey (pattern rule) = false
    end.
Proof.
  destruct (type rule).
  - unfold Js.try_catch, mbind, result_bind, Js.bind, mret, result_ret.
    destruct (compile engine (pattern rule)) as [re|e].
    + split; [intros [= E]; eauto | intros (re' & [= <-] & E); by rewrite E].
    + split; [intros [=] | intros (re' & [=] & _)].
  - unfold mret, result_ret. split; [by intros [= ->] | by intros ->].
  - unfold mret, result_ret.
    destruct (includes tableKey (pattern rule)); simpl; split; by intros [=].
Qed.

Lemma isTableExcluded_true_iff (tableKey : string) (rules : list ExclusionRule) :
  isTableExcluded engine tableKey rules = Js.Ok true
  ↔ ∃ rule, rule ∈ rules
            ∧ match type rule with
              | regex => ∃ re, compile engine (pattern rule) = Js.Ok re
                               ∧ test engine re tableKey = true
              | contains => includes tableKey (pattern rule) = true
              | not_contains => includes tableKey (pattern rule) = false
              end.
Proof.
  induction rules as [|rule rest IH].
  - split; [intros [=] | intros (rule & Hin & _); by apply elem_of_nil in Hin].
  - pose proof (rule_step_true rule tableKey) as Hstep.
    cbn [isTableExcluded].
    destruct (match type rule with
              | regex => _ | contains => _ | not_contains => _ end) as [[|]|e] eqn:E.
    + split; [intros _|done]. exists rule. split; [left|]. by apply Hstep.
    + cbn. rewrite IH. split.
      * intros (r & Hin & Hr). exists r. split; [by right|done].
      * intros (r & Hin & Hr). apply elem_of_cons in Hin as [->|Hin]; [|eauto].
        apply Hstep in Hr. discriminate.
    + exfalso. destruct (type rule); [|discriminate..].
      destruct (regex_rule_returns engine rule tableKey) as [hit Hhit].
      rewrite Hhit in E. discriminate.
Qed.

(** The answer does not depend on the order of the rules, and grows with
    the list. *)
Lemma isTableExcluded_perm (tableKey : string) (rules rules' : list ExclusionRule) :
  rules ≡ₚ rules' →
  isTableExcluded engine tableKey rules = isTableExcluded engine tableKey rules'.
Proof.
  intros Hperm.
  pose proof (isTableExcluded_true_iff tableKey rules) as H1.
  pose proof (isTableExcluded_true_iff tableKey rules') as H2.
  destruct (isTableExcluded_returns engine tableKey rules) as [[|] E1];
  destruct (isTableExcluded_returns engine tableKey rules') as [[|] E2];
    rewrite E1, E2; try done; exfalso.
  - apply H1 in E1 as (r & Hin & Hr). rewrite Hperm in Hin.
    assert (isTableExcluded engine tableKey rules' = Js.Ok true) as E by (apply H2; eauto).
    congruence.
  - apply H2 in E2 as (r & Hin & Hr). rewrite <-Hperm in Hin.
    assert (isTableExcluded engine tableKey rules = Js.Ok true) as E by (apply H1; eauto).
    congruence.
Qed.

Lemma isTableExcluded_app (tableKey : string) (rules1 rules2 : list ExclusionRule) :
  isTableExcluded engine tableKey (rules1 ++ rules2)%list =
    (excluded ← isTableExcluded engine tableKey rules1;
     if excluded : bool then mret true else isTableExcluded engine tableKey rules2).
Proof.
  induction rules1 as [|rule rest IH]; [done|].
  cbn [isTableExcluded app].
  destruct (match type rule with
            | regex => _ | contains => _ | not_contains => _ end) as [[|]|e]; cbn; [done| |done].
  exact IH.
Qed.

Lemma filterTables_filter {T} (key : T → string) (items : list T)
    (rules : list ExclusionRule) :
  filterTables engine key items rules
    = Js.Ok (filter (λ item, isTableExcluded engine (key item) rules = Js.Ok false) items).
Proof.
  unfold filterTables. destruct (decide (length rules = 0%nat)) as [Hlen|Hlen].
  - apply length_zero_iff_nil in Hlen as ->. cbn. f_equal.
    induction items as [|item rest IH]; [done|].
    rewrite filter_cons_True by done. by rewrite <-IH.
  - clear Hlen. induction items as [|item rest IH]; [done|].
    cbn [array_filter]. rewrite IH. rewrite filter_cons.
    destruct (isTableExcluded_returns engine (key item) rules) as [[|] ->]; cbn;
      by destruct (decide _).
Qed.

(** X1. A key is excluded exactly when some rule of the list hits it: a
    regex rule whose pattern compiles and matches the key, a "contains" rule
    whose pattern occurs in the key, or a "not_contains" rule whose pattern
    does not occur in it; in every other case the answer is [false]. *)
Theorem isTableExcluded_iff_some_rule (tableKey : string) (rules : list ExclusionRule) :
  (isTableExcluded engine tableKey rules = Js.Ok true
   ↔ ∃ rule, rule ∈ rules
             ∧ match type rule with
               | regex => ∃ re, compile engine (pattern rule) = Js.Ok re
                                ∧ test engine re tableKey = true
               | contains => includes tableKey (pattern rule) = true
               | not_contains => includes tableKey (pattern rule) = false
               end)
  ∧ (isTableExcluded engine tableKey rules ≠ Js.Ok true
     ↔ isTableExcluded engine tableKey rules = Js.Ok false).
Proof.
  split; [apply isTableExcluded_true_iff|].
  destruct (isTableExcluded_returns engine tableKey rules) as [[|] ->]; naive_solver.
Qed.

(** X2. [filterTables] keeps exactly the items whose key is not excluded,
    in their order; with no rule it returns the items as they are. *)
Theorem filterTables_keeps_not_excluded {T} (key : T → string) (items : list T)
    (rules : list ExclusionRule) :
  filterTables engine key items rules
    = Js.Ok (filter (λ item, isTableExcluded engine (key item) rules = Js.Ok false) items)
  ∧ filterTables engine key items [] = Js.Ok items.
Proof. split; [apply filterTables_filter | done]. Qed.

(** X3. Filtering with two lists of rules at once is filtering with the
    first and then with the second, and the order of the rules within a
    list does not matter. *)
Theorem filterTables_compose {T} (key : T → string) (items : list T)
    (rules1 rules2 : list ExclusionRule) :
  filterTables engine key items (rules1 ++ rules2)%list
    = (kept ← filterTables engine key items rules1; filterTables engine key kept rules2)
  ∧ ∀ rules', rules1 ≡ₚ rules' →
              filterTables engine key items rules1 = filterTables engine key items rules'.
Proof.
  split.
  - rewrite (filterTables_filter key items rules1). cbn.
    rewrite !filterTables_filter. f_equal.
    rewrite list_filter_filter. apply list_filter_iff. intros item.
    rewrite isTableExcluded_app.
    destruct (isTableExcluded_returns engine (key item) rules1) as [[|] ->]; cbn.
    + split; [intros [=] | intros [_ [=]]].
    + split; [by intros -> | by intros [-> _]].
  - intros rules' Hperm. rewrite !filterTables_filter. f_equal.
    apply list_filter_iff. intros item. by rewrite (isTableExcluded_perm _ _ _ Hperm).
Qed.

End exclusion_meaning.

(** ** Reading back what was written *)

Section cache_round_trip.
Import Cache.

Lemma lookup_prop_NoDup (name : string) (props : list (string * Json.value)) :
  NoDup props.*1 →
  ∀ v, Json.lookup_prop name props = Some v ↔ (name, v) ∈ props.
Proof.
  induction props as [|[k w] props IH]; intros Hnd v; simpl.
  - split; [done | by intros ?%elem_of_nil].
  - simpl in Hnd. apply NoDup_cons in Hnd as [Hk Hnd].
    destruct (Json.lookup_prop name props) as [v'|] eqn:E.
    + pose proof (proj1 (IH Hnd v') eq_refl) as Hin.
      split.
      * intros [= <-]. by right.
      * intros [[= <- <-]|Hin']%elem_of_cons.
        -- exfalso. apply Hk. by apply (list_elem_of_fmap_2 fst) in Hin.
        -- by apply IH.
    + destruct (decide (k = name)) as [->|Hne].
      * split; [intros [= <-]; left|].
        intros [[= <-]|Hin]%elem_of_cons; [done|].
        apply IH in Hin; [|done]. congruence.
      * split; [done|].
        intros [[= ? ?]|Hin]%elem_of_cons; [done|].
        apply IH in Hin; [|done]. congruence.
Qed.

Lemma lookup_prop_map_to_list (m : gmap string Json.value) (name : string) :
  Json.lookup_prop name (map_to_list m) = m !! name.
Proof.
  apply option_eq. intros v.
  rewrite lookup_prop_NoDup by apply NoDup_fst_map_to_list.
  apply elem_of_map_to_list.
Qed.

Lemma entry_json_inj (e1 e2 : TableCacheEntry) :
  entry_json e1 = entry_json e2 → e1 = e2.
Proof.
  destruct e1 as [d1 [s1|] [|]], e2 as [d2 [s2|] [|]]; simpl; intros [=]; by subst.
Qed.

(** X4. [readSchemaCache] returns a value exactly for a readable file whose
    text parses to an object with a [tables] property of type "object" (an
    object, an array or [null]), and that value is the parsed text; for
    every other file it returns [null]. It never throws. *)
Theorem readSchemaCache_characterised (cacheFile : Fs.file) :
  (∀ data,
     readSchemaCache cacheFile = Js.Ok (Some data)
     ↔ ∃ props,
         cacheFile = Fs.Readable (Json.Encodes data)
         ∧ data = Json.Object props
         ∧ (Json.lookup_prop "tables" props = Some Json.Null
            ∨ (∃ items, Json.lookup_prop "tables" props = Some (Json.Array items))
            ∨ (∃ tprops, Json.lookup_prop "tables" props = Some (Json.Object tprops))))
  ∧ (readSchemaCache cacheFile ≠ Js.Ok None
     → ∃ data, readSchemaCache cacheFile = Js.Ok (Some data)).
Proof.
  split.
  - intros data. pose proof (readSchemaCache_null_cases cacheFile) as Hcases.
    destruct cacheFile as [|e|[raw|v]].
    + rewrite Hcases. split; [done | intros (? & [=] & _)].
    + rewrite Hcases. split; [done | intros (? & [=] & _)].
    + rewrite Hcases. split; [done | intros (? & [=] & _)].
    + rewrite Hcases. destruct v as [|b|n|s|items|props];
        try (split; [done | by intros (? & [= <-] & [=] & _)]).
      destruct (Json.lookup_prop "tables" props) as [[|b|n|s|items|tprops]|] eqn:E; cbn.
      * split; [intros [= <-]; eauto 10 | by intros (? & [= <-] & _)].
      * split; [done | intros (? & [= <-] & [= <-] & H)]. rewrite E in H.
        destruct H as [[=]|[[? [=]]|[? [=]]]].
      * split; [done | intros (? & [= <-] & [= <-] & H)]. rewrite E in H.
        destruct H as [[=]|[[? [=]]|[? [=]]]].
      * split; [done | intros (? & [= <-] & [= <-] & H)]. rewrite E in H.
        destruct H as [[=]|[[? [=]]|[? [=]]]].
      * split; [intros [= <-]; eauto 10 | by intros (? & [= <-] & _)].
      * split; [intros [= <-]; eauto 10 | by intros (? & [= <-] & _)].
      * split; [done | intros (? & [= <-] & [= <-] & H)]. rewrite E in H.
        destruct H as [[=]|[[? [=]]|[? [=]]]].
  - intros Hne. destruct (readSchemaCache_returns cacheFile) as [[data|] E]; [eauto|done].
Qed.

(** X5. A cache written without failure is read back: [readSchemaCache]
    returns its JSON, whose [tables] property is an object that holds, under
    every key, the JSON of the entry the cache holds under that key, and
    nothing under any other key; and the JSON of an entry determines the
    entry. *)
Theorem writeSchemaCache_read_back (cache : SchemaCache) (cacheFile : Fs.file) :
  (writeSchemaCache cache None cacheFile).1 = Js.Ok ()
  ∧ readSchemaCache (writeSchemaCache cache None cacheFile).2
      = Js.Ok (Some (cache_json cache))
  ∧ (∃ tprops,
       Json.get (cache_json cache) "tables" = Js.Ok (Some (Json.Object tprops))
       ∧ ∀ key, Json.lookup_prop key tprops = entry_json <$> (tables cache !! key))
  ∧ (∀ e1 e2, entry_json e1 = entry_json e2 → e1 = e2).
Proof.
  split; [done|]. split; [|split].
  - simpl. unfold readSchemaCache, cache_json; simpl.
    destruct (enums cache); reflexivity.
  - exists (map_to_list (entry_json <$> tables cache)). split.
    + unfold cache_json; simpl. destruct (enums cache); reflexivity.
    + intros key. by rewrite lookup_prop_map_to_list, lookup_fmap.
  - apply entry_json_inj.
Qed.

End cache_round_trip.

(** ** The sync command, beyond its failures *)

Section sync_more.
Import SyncSchema.

Lemma foldl_assign_skip (tableTypes : gmap string Cache.Kind)
    (entries : list (string * string)) (acc : gmap string Cache.TableCacheEntry)
    (key : string) :
  key ∉ entries.*1 ∨ key = "__proto__" →
  foldl (λ tables e, assign e.1 (cache_entry tableTypes e.1 e.2) tables) acc entries !! key
    = acc !! key.
Proof.
  revert acc. induction entries as [|[k d] entries IH]; intros acc Hkey; [done|].
  simpl. rewrite IH.
  - unfold assign. destruct (decide (k = "__proto__")) as [->|Hk]; [done|].
    apply lookup_insert_ne. destruct Hkey as [Hnotin| ->]; [|done].
    intros ->. apply Hnotin. simpl. left.
  - destruct Hkey as [Hnotin|?]; [left|by right].
    intros Hin. apply Hnotin. simpl. by right.
Qed.

Lemma foldl_assign_stored (tableTypes : gmap string Cache.Kind)
    (entries : list (string * string)) (acc : gmap string Cache.TableCacheEntry)
    (key ddl : string) :
  NoDup entries.*1 →
  (key, ddl) ∈ entries →
  key ≠ "__proto__" →
  foldl (λ tables e, assign e.1 (cache_entry tableTypes e.1 e.2) tables) acc entries !! key
    = Some (cache_entry tableTypes key ddl).
Proof.
  revert acc. induction entries as [|[k d] entries IH]; intros acc Hnd Hin Hkey.
  { by apply elem_of_nil in Hin. }
  simpl in Hnd. apply NoDup_cons in Hnd as [Hk Hnd].
  apply elem_of_cons in Hin as [[= <- <-]|Hin]; simpl.
  - rewrite foldl_assign_skip by (by left).
    unfold assign. rewrite decide_False by done. apply lookup_insert_eq.
  - by apply IH.
Qed.

Lemma cache_tables_lookup_eq (tableDdls : gmap string string)
    (tableTypes : gmap string Cache.Kind) (key : string) :
  cache_tables tableDdls tableTypes !! key
    = if decide (key = "__proto__") then None
      else cache_entry tableTypes key <$> tableDdls !! key.
Proof.
  unfold cache_tables. destruct (decide (key = "__proto__")) as [->|Hkey].
  - rewrite foldl_assign_skip by (by right). apply lookup_empty.
  - destruct (tableDdls !! key) as [ddl|] eqn:E; simpl.
    + apply foldl_assign_stored; [apply NoDup_fst_map_to_list| |done].
      by apply elem_of_map_to_list.
    + rewrite foldl_assign_skip; [apply lookup_empty|]. left.
      intros ([k d] & -> & Hin)%list_elem_of_fmap. simpl in E.
      apply elem_of_map_to_list in Hin. congruence.
Qed.

(** X6. The loop of the sync command stores one entry for every key of
    the DDL mapping other than ["__proto__"], built from that key and its
    DDL, and nothing else: the keys of the cache are those keys, and their
    number is the number of tables the command reports. *)
Theorem cache_tables_covers_ddl_keys (tableDdls : gmap string string)
    (tableTypes : gmap string Cache.Kind) :
  (∀ key,
     cache_tables tableDdls tableTypes !! key
       = if decide (key = "__proto__") then None
         else cache_entry tableTypes key <$> tableDdls !! key)
  ∧ dom (cache_tables tableDdls tableTypes) = dom tableDdls ∖ {["__proto__"]}
  ∧ size (cache_tables tableDdls tableTypes) = size (delete "__proto__" tableDdls).
Proof.
  assert (dom (cache_tables tableDdls tableTypes) = dom tableDdls ∖ {["__proto__"]}) as Hdom.
  { apply set_eq. intros key.
    rewrite elem_of_difference, !elem_of_dom, elem_of_singleton, cache_tables_lookup_eq.
    destruct (decide (key = "__proto__")) as [->|Hkey].
    - split; [by intros [? [=]] | by intros [_ []]].
    - rewrite fmap_is_Some. split; [by intros ?; split | by intros [? _]]. }
  split; [apply cache_tables_lookup_eq|]. split; [done|].
  by rewrite <-!size_dom, Hdom, dom_delete_L.
Qed.

Context (buildSchemaDdl : PgSchema.SchemaData → DdlBuilder.SchemaDdl).

(** X7. When the connection, the seven statements and the write succeed
    and the view stays open, the command writes the cache built from the
    snapshot, sets the state to "success" and the table count to the number
    of entries, shows one success toast that carries the count, leaves the
    error message alone, and the file it leaves reads back as that cache. *)
Theorem sync_success (a : Attempt) (w : World) (client : PgSchema.Client)
    (data : PgSchema.SchemaData) :
  config a = Js.Ok () →
  connect a = Js.Ok client →
  PgSchema.fetchSchemaData client = Js.Ok data →
  (∀ point, point ≠ InCatch → cancelled a point = false) →
  write_failure a = None →
  let tables := cache_tables (DdlBuilder.tableDdls (buildSchemaDdl data))
                  (DdlBuilder.tableTypes (buildSchemaDdl data)) in
  let cache := {| Cache.tables := tables; Cache.enums := None |} in
  (sync buildSchemaDdl a w).1 = Js.Ok ()
  ∧ state (sync buildSchemaDdl a w).2 = success
  ∧ tableCount (sync buildSchemaDdl a w).2 = size tables
  ∧ errorMessage (sync buildSchemaDdl a w).2 = errorMessage w
  ∧ toasts (sync buildSchemaDdl a w).2
      = (toasts w ++ [{| style := Success; title := "Schema synced";
                         message := pretty (size tables) ++ " tables cached" |}])%list
  ∧ written (sync buildSchemaDdl a w).2 = (written w ++ [cache])%list
  ∧ Cache.readSchemaCache (cacheFile (sync buildSchemaDdl a w).2)
      = Js.Ok (Some (Cache.cache_json cache)).
Proof.
  intros Hconfig Hconnect Hfetch Hopen Hwrite tables cache.
  unfold sync, task_bind, try_finally, try_catch, await, writeSchemaCache,
    Cache.writeSchemaCache.
  rewrite Hconfig, Hconnect, Hfetch, Hwrite, !Hopen by done.
  destruct (end_failure a); repeat split.
Qed.

(** X8. Once the client is built, an attempt never rejects, whatever
    fails (a failure of [client.end()] included); it calls
    [writeSchemaCache] at most once, touches the cache file only through
    that call, and shows at most one toast. *)
Theorem sync_settles (a : Attempt) (w : World) :
  config a = Js.Ok () →
  (sync buildSchemaDdl a w).1 = Js.Ok ()
  ∧ ((written (sync buildSchemaDdl a w).2 = written w
      ∧ cacheFile (sync buildSchemaDdl a w).2 = cacheFile w)
     ∨ ∃ cache, written (sync buildSchemaDdl a w).2 = (written w ++ [cache])%list)
  ∧ (toasts (sync buildSchemaDdl a w).2 = toasts w
     ∨ ∃ toast, toasts (sync buildSchemaDdl a w).2 = (toasts w ++ [toast])%list).
Proof.
  intros Hconfig.
  unfold sync, task_bind, try_finally, try_catch, await, writeSchemaCache,
    Cache.writeSchemaCache.
  rewrite Hconfig.
  destruct (connect a) as [client|e]; [|
    destruct (cancelled a InCatch), (end_failure a); cbn; eauto 10].
  destruct (cancelled a AfterConnect); [destruct (end_failure a); cbn; eauto 10|].
  destruct (PgSchema.fetchSchemaData client) as [data|e]; [|
    destruct (cancelled a InCatch), (end_failure a); cbn; eauto 10].
  destruct (cancelled a AfterFetch); [destruct (end_failure a); cbn; eauto 10|].
  destruct (write_failure a), (cancelled a AfterWrite), (cancelled a InCatch),
    (end_failure a); cbn; eauto 10.
Qed.

(** X9. Closing the view before the cache is written leaves everything as
    it was: nothing is written, shown or changed when the view is closed by
    the time the connection is made, or by the time the statements return.
    Closing it after the write keeps the written cache and shows nothing. *)
Theorem sync_cancelled (a : Attempt) (w : World) (client : PgSchema.Client) :
  config a = Js.Ok () →
  connect a = Js.Ok client →
  (cancelled a AfterConnect = true → (sync buildSchemaDdl a w).2 = w)
  ∧ (∀ data,
       cancelled a AfterConnect = false →
       PgSchema.fetchSchemaData client = Js.Ok data →
       cancelled a AfterFetch = true →
       (sync buildSchemaDdl a w).2 = w)
  ∧ (∀ data,
       cancelled a AfterConnect = false →
       PgSchema.fetchSchemaData client = Js.Ok data →
       cancelled a AfterFetch = false →
       write_failure a = None →
       cancelled a AfterWrite = true →
       state (sync buildSchemaDdl a w).2 = state w
       ∧ tableCount (sync buildSchemaDdl a w).2 = tableCount w
       ∧ toasts (sync buildSchemaDdl a w).2 = toasts w
       ∧ ∃ cache, written (sync buildSchemaDdl a w).2 = (written w ++ [cache])%list
                  ∧ cacheFile (sync buildSchemaDdl a w).2
                      = Fs.Readable (Json.stringify (Cache.cache_json cache))).
Proof.
  intros Hconfig Hconnect.
  unfold sync, task_bind, try_finally, try_catch, await, writeSchemaCache,
    Cache.writeSchemaCache.
  rewrite Hconfig, Hconnect. split; [|split].
  - intros ->. destruct (end_failure a), w; reflexivity.
  - intros data -> -> ->. destruct (end_failure a), w; reflexivity.
  - intros data -> -> -> -> ->. destruct (end_failure a); cbn; eauto 10.
Qed.

(** X10. A failure of the write itself is reported like any other: the
    call was made, the state becomes "error" with the message of the
    failure and a failure toast, and no table count is set; and when the
    client cannot even be built from the connection string, the attempt
    rejects at once and nothing is shown or changed. *)
Theorem sync_write_failure (a : Attempt) (w : World) :
  (∀ client data e,
     config a = Js.Ok () →
     connect a = Js.Ok client →
     PgSchema.fetchSchemaData client = Js.Ok data →
     (∀ point, cancelled a point = false) →
     write_failure a = Some e →
     state (sync buildSchemaDdl a w).2 = error
     ∧ errorMessage (sync buildSchemaDdl a w).2 = Some (message_of e)
     ∧ tableCount (sync buildSchemaDdl a w).2 = tableCount w
     ∧ toasts (sync buildSchemaDdl a w).2
         = (toasts w ++ [{| style := Failure; title := "Sync failed";
                            message := message_of e |}])%list
     ∧ length (written (sync buildSchemaDdl a w).2) = S (length (written w)))
  ∧ (∀ e, config a = Js.Throw e → sync buildSchemaDdl a w = (Js.Throw e, w)).
Proof.
  split.
  - intros client data e Hconfig Hconnect Hfetch Hopen Hwrite.
    unfold sync, task_bind, try_finally, try_catch, await, writeSchemaCache,
      Cache.writeSchemaCache.
    rewrite Hconfig, Hconnect, Hfetch, Hwrite, !Hopen.
    destruct (end_failure a); cbn; rewrite length_app; cbn; repeat split; lia.
  - intros e Hconfig. unfold sync, task_bind, await. by rewrite Hconfig.
Qed.

End sync_more.

(** ** Grouping by schema, and the stored schema field *)

Section explore_grouping.
Import ExploreTables.

Lemma append_cons (c : ascii) (s t : string) : String c s ++ t = String c (s ++ t).
Proof. reflexivity. Qed.

Lemma append_nil (t : string) : "" ++ t = t.
Proof. reflexivity. Qed.

Lemma prefix_spec (sub s : string) :
  String.prefix sub s = true ↔ ∃ post, s = sub ++ post.
Proof.
  revert s. induction sub as [|c sub IH]; intros s.
  - destruct s; simpl; (split; [intros _; by eexists | done]).
  - destruct s as [|c' s]; simpl; [split; [done | intros [post [=]]]|].
    destruct (Ascii.ascii_dec c c') as [->|Hne].
    + rewrite IH. split; intros [post E]; exists post;
        rewrite append_cons in *; congruence.
    + split; [done|]. intros [post E]. rewrite append_cons in E. congruence.
Qed.

(** [s.includes(sub)] holds exactly when [sub] occurs in [s]. *)
Lemma includes_spec (s sub : string) :
  Exclusion.includes s sub = true ↔ ∃ pre post, s = pre ++ sub ++ post.
Proof.
  induction s as [|c s IH].
  - cbn [Exclusion.includes]. rewrite orb_false_r, prefix_spec. split.
    + intros [post E]. by exists "", post.
    + intros ([|??] & post & E); [by exists post|].
      rewrite append_cons in E. discriminate.
  - cbn [Exclusion.includes]. rewrite orb_true_iff, prefix_spec, IH. split.
    + intros [[post E] | (pre & post & E)].
      * by exists "", post.
      * exists (String c pre), post. rewrite append_cons. by rewrite E.
    + intros ([|c' pre] & post & E).
      * left. by exists post.
      * right. exists pre, post. rewrite append_cons in E. congruence.
Qed.

Lemma schema_of_dotted (k : string) :
  Exclusion.includes k "." = true →
  head (SyncSchema.split "." k) = Some (schema_of k).
Proof.
  intros Hdot. unfold schema_of. rewrite Hdot.
  by destruct (split_dot_head k) as (first & others & -> & _).
Qed.

Lemma split_undotted (k : string) :
  Exclusion.includes k "." = false → head (SyncSchema.split "." k) = Some k.
Proof.
  intros Hdot.
  destruct (split_dot_head k) as (first & others & -> & _ & [[_ ->] | [rest ->]]); [done|].
  exfalso. apply not_true_iff_false in Hdot. apply Hdot.
  apply includes_spec. by exists first, rest.
Qed.

Lemma foldl_group_lookup (items : list Item) (acc : gmap string (list Item)) (s : string) :
  foldl (λ map item,
           <[schema_of (key item) :=
               (default [] (map !! schema_of (key item)) ++ [item])%list]> map)
    acc items !! s
  = match filter (λ item, schema_of (key item) = s) items with
    | [] => acc !! s
    | group => Some (default [] (acc !! s) ++ group)%list
    end.
Proof.
  revert acc. induction items as [|item items IH]; intros acc; [done|].
  cbn [foldl]. rewrite IH. rewrite filter_cons.
  destruct (decide (schema_of (key item) = s)) as [<-|Hne].
  - rewrite lookup_insert_eq. cbn.
    destruct (filter _ items) as [|x group]; [done|].
    by rewrite <-app_assoc.
  - by rewrite lookup_insert_ne.
Qed.

(** X11. [groupBySchema] puts under each schema exactly the items of that
    schema, in their order, and has no group for a schema without items:
    every item is in the group of its own schema and in no other. *)
Theorem groupBySchema_groups (items : list Item) :
  (∀ s, groupBySchema items !! s
        = match filter (λ item, schema_of (key item) = s) items with
          | [] => None
          | group => Some group
          end)
  ∧ (∀ item, item ∈ items →
       ∃ group, groupBySchema items !! schema_of (key item) = Some group ∧ item ∈ group)
  ∧ (∀ s group item, groupBySchema items !! s = Some group → item ∈ group →
       item ∈ items ∧ schema_of (key item) = s).
Proof.
  assert (∀ s, groupBySchema items !! s
               = match filter (λ item, schema_of (key item) = s) items with
                 | [] => None
                 | group => Some group
                 end) as Hlookup.
  { intros s. unfold groupBySchema.
    rewrite (foldl_group_lookup items ∅ s), lookup_empty.
    by destruct (filter _ items). }
  split; [done|]. split.
  - intros item Hin. rewrite Hlookup.
    assert (item ∈ filter (λ i, schema_of (key i) = schema_of (key item)) items) as Hf
      by (by apply list_elem_of_filter).
    destruct (filter _ items) as [|x group]; [by apply elem_of_nil in Hf|]. eauto.
  - intros s group item Hs Hin. rewrite Hlookup in Hs.
    destruct (filter _ items) as [|x g] eqn:E; [done|]. injection Hs as <-.
    rewrite <-E in Hin. apply list_elem_of_filter in Hin as [? ?]. done.
Qed.

(** X12. The explore command groups a cached table under the text before
    the first ["."] of its key, which is the schema field the sync command
    stored for that key; a key without ["."] is grouped under "public",
    whereas its stored schema field is the key itself. *)
Theorem schema_of_agrees_with_stored_schema (tableTypes : gmap string Cache.Kind)
    (k ddl : string) :
  (Exclusion.includes k "." = true ↔ ∃ pre post, k = pre ++ "." ++ post)
  ∧ (Exclusion.includes k "." = true →
       Cache.schema (SyncSchema.cache_entry tableTypes k ddl) = Some (schema_of k)
       ∧ (∃ rest, k = schema_of k ++ "." ++ rest)
       ∧ Exclusion.includes (schema_of k) "." = false)
  ∧ (Exclusion.includes k "." = false →
       schema_of k = "public"
       ∧ Cache.schema (SyncSchema.cache_entry tableTypes k ddl) = Some k).
Proof.
  split; [apply includes_spec|]. split.
  - intros Hdot. split; [by apply schema_of_dotted|].
    pose proof (schema_of_dotted k Hdot) as Hhead.
    destruct (split_dot_head k) as (first & others & Hsplit & Hnodot & Hkey).
    rewrite Hsplit in Hhead. injection Hhead as Hfirst. rewrite <-Hfirst. split.
    + destruct Hkey as [[_ Hk] | ?]; [|done].
      exfalso. apply includes_spec in Hdot as (pre & post & E).
      apply (Hnodot pre post). by rewrite <-Hk.
    + apply not_true_iff_false. intros (pre & post & E)%includes_spec.
      by apply (Hnodot pre post).
  - intros Hdot. split; [unfold schema_of; by rewrite Hdot|].
    by apply split_undotted.
Qed.

End explore_grouping.

(** ** The stored connection string *)

Section connection_string.
Import Credentials.

Lemma trim_start_head (s : string) :
  match trim_start s with
  | String c _ => is_space c = false
  | EmptyString => True
  end.
Proof.
  induction s as [|c s IH]; [done|]. simpl.
  destruct (is_space c) eqn:E; [done|]. simpl. by rewrite E.
Qed.

Lemma trim_end_idem (s : string) : trim_end (trim_end s) = trim_end s.
Proof.
  induction s as [|c s IH]; [done|]. simpl.
  destruct (trim_end s) as [|d kept] eqn:E.
  - destruct (is_space c) eqn:Ec; [done|]. simpl. by rewrite Ec.
  - change (trim_end (String c (String d kept)))
      with (match trim_end (String d kept) with
            | EmptyString => if is_space c then "" else String c ""
            | k => String c k
            end).
    by rewrite IH.
Qed.

Lemma trim_start_trim_end (s : string) :
  match s with String c _ => is_space c = false | EmptyString => True end →
  trim_start (trim_end s) = trim_end s.
Proof.
  destruct s as [|c s]; [done|]. intros Hc. simpl.
  destruct (trim_end s); rewrite ?Hc; simpl; by rewrite Hc.
Qed.

Lemma ascii_trim_idem (s : string) : ascii_trim (ascii_trim s) = ascii_trim s.
Proof.
  unfold ascii_trim.
  rewrite (trim_start_trim_end (trim_start s)) by apply trim_start_head.
  apply trim_end_idem.
Qed.

End connection_string.

(** X13. A connection string that was saved is the one returned, trimmed,
    whatever the preferences hold; when it trims to nothing, and after it is
    cleared, the trimmed preference is returned, or the empty string when
    there is none. Saving and clearing leave the other stored items alone. *)
Theorem connection_string_round_trip (trim : string → string)
    (value : string) (storage : gmap string string) (prefs : Credentials.Preferences) :
  (∀ s, trim (trim s) = trim s) →
  Credentials.getConnectionString trim
      (Credentials.setConnectionString trim value storage) prefs
    = (if decide (trim value = "")
       then default "" (trim <$> Credentials.connectionString prefs)
       else trim value)
  ∧ Credentials.getConnectionString trim (Credentials.clearConnectionString storage) prefs
      = default "" (trim <$> Credentials.connectionString prefs)
  ∧ (∀ k, k ≠ Credentials.STORAGE_KEY →
          Credentials.setConnectionString trim value storage !! k = storage !! k
          ∧ Credentials.clearConnectionString storage !! k = storage !! k).
Proof.
  intros Hidem. split; [|split].
  - unfold Credentials.getConnectionString, Credentials.setConnectionString.
    rewrite lookup_insert_eq, Hidem.
    destruct (decide (trim value = "")) as [E|E].
    + by rewrite E.
    + by rewrite !bool_decide_eq_true_2.
  - unfold Credentials.getConnectionString, Credentials.clearConnectionString.
    by rewrite lookup_delete_eq.
  - intros k Hk. unfold Credentials.setConnectionString, Credentials.clearConnectionString.
    by rewrite lookup_insert_ne, lookup_delete_ne.
Qed.

Lemma connection_string_round_trip_witness :
  (∀ s, Credentials.ascii_trim (Credentials.ascii_trim s) = Credentials.ascii_trim s)
  ∧ Credentials.getConnectionString Credentials.ascii_trim
      (Credentials.setConnectionString Credentials.ascii_trim
         "  postgresql://app@db.internal:5432/shop " ∅)
      {| Credentials.connectionString := Some "postgresql://fallback/none" |}
    = "postgresql://app@db.internal:5432/shop".
Proof.
  split; [apply ascii_trim_idem|].
  destruct (connection_string_round_trip Credentials.ascii_trim
              "  postgresql://app@db.internal:5432/shop " ∅
              {| Credentials.connectionString := Some "postgresql://fallback/none" |}
              ascii_trim_idem) as (Hget & _).
  rewrite Hget. reflexivity.
Defined.

(** ** The stored exclusion rules *)

Section stored_rules.
Import ExclusionStore.


Lemma getExclusionRules_array (items : list Json.value) :
  getExclusionRules (Some (Json.stringify (Json.Array items))) = Js.Ok items.
Proof. reflexivity. Qed.

Lemma id_differs_rule (i : string) (r : Exclusion.ExclusionRule) :
  id_differs i (rule_json r) = Js.Ok (bool_decide (Exclusion.id r ≠ i)).
Proof. reflexivity. Qed.

Lemma array_filter_rules (i : string) (rules : list Exclusion.ExclusionRule) :
  Exclusion.array_filter (id_differs i) (rule_json <$> rules)
    = Js.Ok (rule_json <$> filter (λ r, Exclusion.id r ≠ i) rules).
Proof.
  induction rules as [|r rules IH]; [done|].
  rewrite fmap_cons. cbn [Exclusion.array_filter].
  rewrite id_differs_rule, IH, filter_cons. cbn.
  destruct (decide (Exclusion.id r ≠ i)).
  - by rewrite bool_decide_eq_true_2.
  - by rewrite bool_decide_eq_false_2.
Qed.

Lemma array_filter_null (i : string) (items : list Json.value) :
  Json.Null ∈ items → ∃ e, Exclusion.array_filter (id_differs i) items = Js.Throw e.
Proof.
  induction items as [|item items IH]; intros Hin; [by apply elem_of_nil in Hin|].
  cbn [Exclusion.array_filter].
  destruct (id_differs i item) as [k|e] eqn:Ek; [|cbn; eauto].
  apply elem_of_cons in Hin as [<-|Hin]; [discriminate|].
  destruct (IH Hin) as [e ->]. cbn. eauto.
Qed.


(** X15. On stored rules, [removeExclusionRule] leaves exactly the rules
    with another id, in their order, so that removing a rule just added
    under a fresh id restores the rules; on a stored array that holds
    [null] it throws, although [getExclusionRules] still returns. *)
Theorem removeExclusionRule_removes (i : string) (rules : list Exclusion.ExclusionRule) :
  (∃ stored',
     removeExclusionRule i (Some (Json.stringify (Json.Array (rule_json <$> rules))))
       = Js.Ok stored'
     ∧ getExclusionRules stored'
         = Js.Ok (rule_json <$> filter (λ r, Exclusion.id r ≠ i) rules))
  ∧ (∀ type pattern,
       Forall (λ r, Exclusion.id r ≠ i) rules →
       ∃ rule stored' stored'',
         addExclusionRule i type pattern
           (Some (Json.stringify (Json.Array (rule_json <$> rules))))
           = Js.Ok (rule, stored')
         ∧ removeExclusionRule i stored' = Js.Ok stored''
         ∧ getExclusionRules stored'' = Js.Ok (rule_json <$> rules))
  ∧ (∀ items,
       Json.Null ∈ items →
       (∃ e, removeExclusionRule i (Some (Json.stringify (Json.Array items))) = Js.Throw e)
       ∧ getExclusionRules (Some (Json.stringify (Json.Array items))) = Js.Ok items).
Proof.
  split; [|split].
  - unfold removeExclusionRule. rewrite getExclusionRules_array. cbn.
    rewrite array_filter_rules. cbn. eexists. split; [done|].
    apply getExclusionRules_array.
  - intros type pattern Hfresh.
    unfold addExclusionRule. rewrite getExclusionRules_array. cbn.
    eexists _, _, _. split; [done|].
    unfold removeExclusionRule. rewrite getExclusionRules_array. cbn.
    set (rule := {| Exclusion.id := i; Exclusion.type := type;
                    Exclusion.pattern := pattern |}).
    change [rule_json rule] with (rule_json <$> [rule]).
    rewrite <-fmap_app, array_filter_rules. cbn. split; [done|].
    rewrite getExclusionRules_array. do 2 f_equal.
    rewrite filter_app, filter_cons_False, filter_nil, app_nil_r by (cbn; naive_solver).
    clear rule. induction Hfresh as [|r rules Hr _ IH]; [done|].
    by rewrite filter_cons_True, IH.
  - intros items Hnull. split; [|apply getExclusionRules_array].
    unfold removeExclusionRule. rewrite getExclusionRules_array. cbn.
    destruct (array_filter_null i items Hnull) as [e ->]. cbn. eauto.
Qed.

End stored_rules.

(** ** The registry of databases *)

Section array_find_facts.
Context {A : Type} (P : A → Prop) `{∀ x, Decision (P x)}.

Lemma array_find_Some (items : list A) (x : A) :
  array_find P items = Some x → x ∈ items ∧ P x.
Proof.
  induction items as [|y items IH]; [done|]. simpl.
  destruct (decide (P y)).
  - intros [= <-]. split; [left|done].
  - intros [? ?]%IH. split; [by right|done].
Qed.

Lemma array_find_None (items : list A) :
  array_find P items = None ↔ Forall (λ x, ¬ P x) items.
Proof.
  induction items as [|y items IH]; simpl; [by split|].
  rewrite Forall_cons. destruct (decide (P y)) as [Hp|Hp].
  - split; [done | by intros [? _]].
  - rewrite IH. split; [by intros ? | by intros [_ ?]].
Qed.

Lemma array_find_app (l1 l2 : list A) :
  array_find P (l1 ++ l2) = match array_find P l1 with
                            | Some x => Some x
                            | None => array_find P l2
                            end.
Proof.
  induction l1 as [|y l1 IH]; [done|]. simpl. by destruct (decide (P y)).
Qed.

Lemma array_find_filter (Q : A → Prop) `{∀ x, Decision (Q x)} (items : list A) :
  (∀ x, P x → Q x) → array_find P (filter Q items) = array_find P items.
Proof.
  intros HPQ. induction items as [|y items IH]; [done|].
  rewrite filter_cons. simpl. destruct (decide (Q y)) as [Hq|Hq]; simpl.
  - by rewrite IH.
  - rewrite IH. destruct (decide (P y)) as [Hp|]; [|done]. by apply HPQ in Hp.
Qed.

End array_find_facts.

Section registry.
Import Databases.

Lemma getDatabaseSync_remove_other (registry : DatabaseRegistry) (i j : string) :
  j ≠ i → getDatabaseSync (removeDatabase i registry) j = getDatabaseSync registry j.
Proof.
  intros Hne. unfold getDatabaseSync, removeDatabase; simpl.
  apply array_find_filter. by intros d ->.
Qed.

Lemma getDatabaseSync_remove_same (registry : DatabaseRegistry) (i : string) :
  getDatabaseSync (removeDatabase i registry) i = None.
Proof.
  unfold getDatabaseSync, removeDatabase; simpl.
  apply array_find_None, Forall_forall. by intros d [? _]%list_elem_of_filter.
Qed.

Lemma getDefaultDatabaseSync_head (dbs : list StoredDatabase) :
  getDefaultDatabaseSync {| databases := dbs; defaultId := id <$> head dbs |} = head dbs.
Proof.
  unfold getDefaultDatabaseSync; simpl.
  destruct dbs as [|d dbs]; [done|]. simpl.
  destruct (bool_decide (id d ≠ "")); [|done].
  by rewrite decide_True.
Qed.

(** X16. After [removeDatabase(id)] no database with that id can be looked
    up, every other lookup answers as before, and the remaining databases
    keep their order. When the removed database was the default, the first
    remaining database becomes the default (none when the registry is
    empty); otherwise the default stays. *)
Theorem removeDatabase_lookup (i : string) (registry : DatabaseRegistry) :
  getDatabaseSync (removeDatabase i registry) i = None
  ∧ (∀ j, j ≠ i →
          getDatabaseSync (removeDatabase i registry) j = getDatabaseSync registry j)
  ∧ databases (removeDatabase i registry) `sublist_of` databases registry
  ∧ (defaultId registry = Some i →
       defaultId (removeDatabase i registry)
         = id <$> head (databases (removeDatabase i registry))
       ∧ getDefaultDatabaseSync (removeDatabase i registry)
           = head (databases (removeDatabase i registry)))
  ∧ (defaultId registry ≠ Some i →
       defaultId (removeDatabase i registry) = defaultId registry).
Proof.
  split; [apply getDatabaseSync_remove_same|].
  split; [intros j; apply getDatabaseSync_remove_other|].
  split; [apply sublist_filter|]. split.
  - intros Hdef. unfold removeDatabase. rewrite decide_True by done. simpl.
    split; [done|]. apply getDefaultDatabaseSync_head.
  - intros Hdef. unfold removeDatabase. by rewrite decide_False.
Qed.

(** X17. After [addDatabase] under an id no database has yet, that id
    looks up the new database, and every other id what it looked up before.
    The first database added to a registry without a default becomes the
    default and is returned flagged as such; in any other registry the
    default stays what it was. *)
Theorem addDatabase_lookup (i : string) (db : NewDatabase) (registry : DatabaseRegistry) :
  (Forall (λ d, id d ≠ i) (databases registry) →
     getDatabaseSync (addDatabase i db registry).2 i = Some (with_id db i))
  ∧ (∀ j, j ≠ i →
          getDatabaseSync (addDatabase i db registry).2 j = getDatabaseSync registry j)
  ∧ (databases registry = [] → truthy (defaultId registry) = false →
       defaultId (addDatabase i db registry).2 = Some i
       ∧ isDefault (addDatabase i db registry).1 = Some true
       ∧ getDefaultDatabaseSync (addDatabase i db registry).2 = Some (with_id db i))
  ∧ (databases registry ≠ [] ∨ truthy (defaultId registry) = true →
       defaultId (addDatabase i db registry).2 = defaultId registry
       ∧ isDefault (addDatabase i db registry).1
           = Some (bool_decide (defaultId registry = Some i))).
Proof.
  split; [|split; [|split]].
  - intros Hfresh. unfold getDatabaseSync, addDatabase; simpl.
    rewrite array_find_app.
    apply (array_find_None (λ d, id d = i)) in Hfresh. rewrite Hfresh. simpl. by rewrite decide_True.
  - intros j Hne. unfold getDatabaseSync, addDatabase; simpl.
    rewrite array_find_app. destruct (array_find _ (databases registry)); [done|].
    simpl. by rewrite decide_False.
  - intros Hempty Hfalsy. unfold addDatabase, getDefaultDatabaseSync; simpl.
    rewrite Hempty, Hfalsy. simpl. rewrite bool_decide_eq_true_2 by done.
    split; [done|]. split; [done|].
    destruct (bool_decide (i ≠ "")); simpl; [by rewrite decide_True | done].
  - intros Hother. unfold addDatabase; simpl.
    assert (negb (truthy (defaultId registry))
            && bool_decide (length (databases registry ++ [with_id db i]) = 1%nat) = false)
      as ->; [|done].
    destruct Hother as [Hne | ->]; [|done].
    apply andb_false_iff. right. apply bool_decide_eq_false_2.
    rewrite length_app. simpl. destruct (databases registry); [done|simpl; lia].
Qed.

Lemma updateDatabase_ids (i : string) (patch : Patch) (registry : DatabaseRegistry) :
  id <$> databases (updateDatabase i patch registry) = id <$> databases registry.
Proof.
  simpl. rewrite <-list_fmap_compose. apply Forall_fmap_ext_1, Forall_forall.
  intros d _. simpl. by destruct (decide (id d = i)).
Qed.

Lemma setDefaultDatabase_ids (i : string) (registry : DatabaseRegistry) :
  id <$> databases (setDefaultDatabase i registry) = id <$> databases registry.
Proof. simpl. by rewrite <-list_fmap_compose. Qed.

(** X18. After [setDefaultDatabase(id)] exactly the databases with that id
    are flagged as default, ids and order are kept, and for a non-empty id
    [getDefaultDatabaseSync] returns the first database with that id,
    flagged, or nothing when no database has it, even if the registry holds
    databases. *)
Theorem setDefaultDatabase_default (i : string) (registry : DatabaseRegistry) :
  Forall (λ d, isDefault d = Some (bool_decide (id d = i)))
    (databases (setDefaultDatabase i registry))
  ∧ id <$> databases (setDefaultDatabase i registry) = id <$> databases registry
  ∧ (i ≠ "" →
       getDefaultDatabaseSync (setDefaultDatabase i registry)
         = (λ d, with_isDefault d true) <$> getDatabaseSync registry i)
  ∧ (i ≠ "" → Forall (λ d, id d ≠ i) (databases registry) →
       getDefaultDatabaseSync (setDefaultDatabase i registry) = None).
Proof.
  assert (i ≠ "" →
          getDefaultDatabaseSync (setDefaultDatabase i registry)
            = (λ d, with_isDefault d true) <$> getDatabaseSync registry i) as Hget.
  { intros Hi. unfold getDefaultDatabaseSync, setDefaultDatabase, getDatabaseSync; simpl.
    rewrite bool_decide_eq_true_2 by done.
    induction (databases registry) as [|d dbs IH]; [done|].
    rewrite fmap_cons. simpl.
    destruct (decide (id d = i)) as [->|Hne].
    - rewrite decide_True by done. simpl. by rewrite bool_decide_eq_true_2.
    - rewrite decide_False by congruence. apply IH. }
  split; [|split; [|split]].
  - apply Forall_fmap, Forall_forall. by intros d _.
  - apply setDefaultDatabase_ids.
  - done.
  - intros Hi Habsent. rewrite Hget by done.
    apply (array_find_None (λ d, id d = i)) in Habsent.
    unfold getDatabaseSync. by rewrite Habsent.
Qed.

(** X19. [updateDatabase(id, patch)] keeps the ids, the order and the
    default; afterwards the id looks up the patched database and every
    other id the database it looked up before. *)
Theorem updateDatabase_lookup (i : string) (patch : Patch) (registry : DatabaseRegistry) :
  id <$> databases (updateDatabase i patch registry) = id <$> databases registry
  ∧ defaultId (updateDatabase i patch registry) = defaultId registry
  ∧ getDatabaseSync (updateDatabase i patch registry) i
      = (λ d, apply_patch d patch) <$> getDatabaseSync registry i
  ∧ (∀ j, j ≠ i →
          getDatabaseSync (updateDatabase i patch registry) j = getDatabaseSync registry j).
Proof.
  split; [|split; [done|split]].
  - apply updateDatabase_ids.
  - unfold getDatabaseSync, updateDatabase; simpl.
    induction (databases registry) as [|d dbs IH]; [done|].
    rewrite fmap_cons. simpl.
    destruct (decide (id d = i)) as [E|Hne].
    + simpl. by rewrite decide_True.
    + by rewrite decide_False.
  - intros j Hne. unfold getDatabaseSync, updateDatabase; simpl.
    induction (databases registry) as [|d dbs IH]; [done|].
    rewrite fmap_cons. simpl.
    destruct (decide (id d = i)) as [E|Hd]; simpl.
    + rewrite !decide_False by congruence. apply IH.
    + destruct (decide (id d = j)); [done|apply IH].
Qed.

(** X20. A default that names a database of the registry still does after
    [addDatabase], [updateDatabase] and [removeDatabase], and after
    [setDefaultDatabase] of an id the registry holds; and a registry whose
    default is listed and which holds a database always yields a default
    database. *)
Theorem default_stays_listed (registry : DatabaseRegistry) :
  default_listed registry →
  (∀ i db, default_listed (addDatabase i db registry).2)
  ∧ (∀ i patch, default_listed (updateDatabase i patch registry))
  ∧ (∀ i, default_listed (removeDatabase i registry))
  ∧ (∀ i, i ∈ id <$> databases registry → default_listed (setDefaultDatabase i registry))
  ∧ (databases registry ≠ [] → is_Some (getDefaultDatabaseSync registry)).
Proof.
  intros Hlisted. split; [|split; [|split; [|split]]].
  - intros i db j. unfold addDatabase; simpl. rewrite fmap_app. simpl.
    destruct (negb _ && _).
    + intros [= <-]. apply elem_of_app. right. left.
    + intros Hj. apply elem_of_app. left. by apply Hlisted.
  - intros i patch j Hj.
    rewrite updateDatabase_ids. by apply Hlisted.
  - intros i j. unfold removeDatabase; simpl.
    destruct (decide (defaultId registry = Some i)) as [Hdef|Hdef].
    + destruct (filter _ (databases registry)) as [|d dbs]; [done|].
      simpl. intros [= <-]. left.
    + intros Hj. pose proof (Hlisted j Hj) as Hin.
      apply list_elem_of_fmap in Hin as (d & -> & Hd).
      apply list_elem_of_fmap_2, list_elem_of_filter. split; [congruence|done].
  - intros i Hi j [= <-].
    by rewrite setDefaultDatabase_ids.
  - intros Hne. unfold getDefaultDatabaseSync.
    destruct (truthy (defaultId registry)) eqn:Ht.
    + destruct (defaultId registry) as [j|] eqn:Hj; [|done].
      pose proof (Hlisted j Hj) as Hin.
      apply list_elem_of_fmap in Hin as (d & -> & Hd).
      destruct (array_find _ (databases registry)) eqn:E; [done|].
      apply array_find_None in E. rewrite Forall_forall in E. by destruct (E d Hd).
    + destruct (databases registry); [done|]. by eexists.
Qed.

End registry.

(** ** The catalog reader and the scan order of the server *)

Section scan_order.
Import PgSchema ScanOrder.

Lemma bind_Permutation_ext {A B} (f g : A → list B) (l l' : list A) :
  (∀ a, f a ≡ₚ g a) → l ≡ₚ l' → l ≫= f ≡ₚ l' ≫= g.
Proof.
  intros Hfg Hperm. rewrite <-Hperm. clear Hperm.
  induction l as [|a l IH]; [done|]. cbn. by rewrite Hfg, IH.
Qed.

Lemma join_Permutation {A B} (l l' : list A) (r r' : list B)
    (on : A * B → Prop) `{∀ j, Decision (on j)} :
  l ≡ₚ l' → r ≡ₚ r' → join l r on ≡ₚ join l' r' on.
Proof.
  intros Hl Hr. unfold join. apply filter_Permutation.
  apply bind_Permutation_ext; [|done]. intros a. by rewrite Hr.
Qed.

Lemma queries_Permutation (db db' : Catalog) :
  same_catalog db db' →
  TABLES_QUERY db ≡ₚ TABLES_QUERY db'
  ∧ COLUMNS_QUERY db ≡ₚ COLUMNS_QUERY db'
  ∧ ENUMS_QUERY db ≡ₚ ENUMS_QUERY db'
  ∧ PRIMARY_KEYS_QUERY db ≡ₚ PRIMARY_KEYS_QUERY db'
  ∧ UNIQUES_QUERY db ≡ₚ UNIQUES_QUERY db'
  ∧ FOREIGN_KEYS_QUERY db ≡ₚ FOREIGN_KEYS_QUERY db'
  ∧ INDEXES_QUERY db ≡ₚ INDEXES_QUERY db'.
Proof.
  intros [Ht Hc Hty He Hn Htc Hk Hr Hcu Hi].
  unfold TABLES_QUERY, COLUMNS_QUERY, ENUMS_QUERY, PRIMARY_KEYS_QUERY, UNIQUES_QUERY,
    FOREIGN_KEYS_QUERY, INDEXES_QUERY.
  rewrite !sort_by_perm.
  repeat split.
  - by apply filter_Permutation.
  - by apply filter_Permutation.
  - apply fmap_Permutation, filter_Permutation.
    apply join_Permutation; [|done]. by apply join_Permutation.
  - apply fmap_Permutation, filter_Permutation. by apply join_Permutation.
  - apply fmap_Permutation, filter_Permutation. by apply join_Permutation.
  - apply fmap_Permutation, filter_Permutation.
    apply join_Permutation; [|done]. by apply join_Permutation.
  - by apply filter_Permutation.
Qed.

(** X21. What [fetchSchemaData] returns does not depend on the order in
    which the server scans its catalogs, up to the order of the rows: on two
    databases with the same catalog rows and the same failing statements,
    either both reads are rejected with the same reason, or both are
    fulfilled and each of the seven collections holds the same rows, each as
    many times. *)
Theorem fetchSchemaData_scan_order (client client' : Client) :
  same_catalog (database client) (database client') →
  (∀ stmt, failure client stmt = failure client' stmt) →
  match fetchSchemaData client, fetchSchemaData client' with
  | Js.Ok s, Js.Ok s' =>
      tables s ≡ₚ tables s'
      ∧ columns s ≡ₚ columns s'
      ∧ enums s ≡ₚ enums s'
      ∧ primaryKeys s ≡ₚ primaryKeys s'
      ∧ uniques s ≡ₚ uniques s'
      ∧ foreignKeys s ≡ₚ foreignKeys s'
      ∧ indexes s ≡ₚ indexes s'
  | Js.Throw e, Js.Throw e' => e = e'
  | _, _ => False
  end.
Proof.
  intros Hsame Hfail.
  unfold fetchSchemaData, query, mbind, result_bind, Js.bind.
  rewrite <-!Hfail.
  destruct (failure client Tables); [done|].
  destruct (failure client Columns); [done|].
  destruct (failure client Enums); [done|].
  destruct (failure client PrimaryKeys); [done|].
  destruct (failure client Uniques); [done|].
  destruct (failure client ForeignKeys); [done|].
  destruct (failure client Indexes); [done|].
  simpl. by apply queries_Permutation.
Qed.

(** X22. When no two rows of [information_schema.tables] share schema and
    name, and no two rows of [information_schema.columns] share schema,
    relation and ordinal position, the relation rows and the column rows
    come back in one and the same order whatever the scan order. *)
Theorem tables_and_columns_scan_order (db db' : Catalog) :
  same_catalog db db' →
  NoDup ((λ r, (TableRow.table_schema r, TableRow.table_name r))
           <$> information_schema_tables db) →
  NoDup ((λ r, (ColumnRow.table_schema r, ColumnRow.table_name r,
                ColumnRow.ordinal_position r)) <$> information_schema_columns db) →
  TABLES_QUERY db = TABLES_QUERY db' ∧ COLUMNS_QUERY db = COLUMNS_QUERY db'.
Proof.
  intros [Ht Hc _ _ _ _ _ _ _ _] Htables Hcolumns. split.
  - unfold TABLES_QUERY. apply sort_by_filter_canonical; [apply _| |done].
    intros x y Hx Hy _ _ Hkey. by apply (NoDup_fmap_inj_on _ _ Htables).
  - unfold COLUMNS_QUERY. apply sort_by_filter_canonical; [apply _| |done].
    intros x y Hx Hy _ _ [= ? ? ?]. apply (NoDup_fmap_inj_on _ _ Hcolumns); [done..|].
    simpl. congruence.
Qed.

End scan_order.

(** ** Which rows the statements return *)

Section returned_rows.
Import PgSchema.

Lemma elem_of_join {A B} (l : list A) (r : list B) (on : A * B → Prop)
    `{∀ j, Decision (on j)} (j : A * B) :
  j ∈ join l r on ↔ j.1 ∈ l ∧ j.2 ∈ r ∧ on j.
Proof.
  unfold join. rewrite list_elem_of_filter, list_elem_of_bind. split.
  - intros (Hon & a & (b & -> & Hb)%list_elem_of_fmap & Ha). done.
  - intros (Ha & Hb & Hon). split; [done|]. exists j.1. split; [|done].
    apply list_elem_of_fmap. exists j.2. split; [by destruct j|done].
Qed.

(** X23. No row of the user schemas is lost or invented: a relation row is
    returned exactly when the catalog lists it outside the two system
    schemas as a base table or a view, a column row exactly when the catalog
    lists it outside the system schemas, and an index row likewise. *)
Theorem fetchSchemaData_rows (client : Client) (s : SchemaData) :
  fetchSchemaData client = Js.Ok s →
  (∀ r, r ∈ tables s
        ↔ r ∈ information_schema_tables (database client)
          ∧ (TableRow.table_schema r ∉ ["pg_catalog"; "information_schema"])
          ∧ (TableRow.table_type r = "BASE TABLE" ∨ TableRow.table_type r = "VIEW"))
  ∧ (∀ r, r ∈ columns s
          ↔ r ∈ information_schema_columns (database client)
            ∧ ColumnRow.table_schema r ∉ ["pg_catalog"; "information_schema"])
  ∧ (∀ r, r ∈ indexes s
          ↔ r ∈ pg_indexes (database client)
            ∧ IndexRow.schemaname r ∉ ["pg_catalog"; "information_schema"]).
Proof.
  intros Hs. apply fetchSchemaData_Ok_inv in Hs as [_ ->]. simpl.
  unfold TABLES_QUERY, COLUMNS_QUERY, INDEXES_QUERY.
  split; [|split].
  - intros r. rewrite elem_of_sort_by, list_elem_of_filter.
    unfold SYSTEM_SCHEMAS. set_unfold. tauto.
  - intros r. rewrite elem_of_sort_by, list_elem_of_filter.
    unfold SYSTEM_SCHEMAS. tauto.
  - intros r. rewrite elem_of_sort_by, list_elem_of_filter.
    unfold SYSTEM_SCHEMAS. tauto.
Qed.

(** X24. A primary-key row is returned exactly for a pair of a PRIMARY KEY
    constraint of a user schema and a key-column-usage row with the same
    constraint name and schema: the row carries the table of the constraint
    and the column and position of the usage row, whichever table the usage
    row belongs to. A foreign-key row is returned exactly for a referential
    constraint, a key-column-usage row of that constraint in a user schema,
    and a column-usage row of the referenced constraint: every local column
    is paired with every referenced column. *)
Theorem key_rows (db : Catalog) :
  (∀ r, r ∈ PRIMARY_KEYS_QUERY db
        ↔ ∃ tc kcu,
            tc ∈ table_constraints db ∧ kcu ∈ key_column_usage db
            ∧ TableConstraints.constraint_name tc = KeyColumnUsage.constraint_name kcu
            ∧ TableConstraints.table_schema tc = KeyColumnUsage.table_schema kcu
            ∧ TableConstraints.constraint_type tc = "PRIMARY KEY"
            ∧ (TableConstraints.table_schema tc ∉ ["pg_catalog"; "information_schema"])
            ∧ r = PrimaryKeyRow.mk (TableConstraints.table_schema tc)
                    (TableConstraints.table_name tc) (TableConstraints.constraint_name tc)
                    (KeyColumnUsage.column_name kcu) (KeyColumnUsage.ordinal_position kcu))
  ∧ (∀ r, r ∈ FOREIGN_KEYS_QUERY db
          ↔ ∃ rc fk pk,
              rc ∈ referential_constraints db ∧ fk ∈ key_column_usage db
              ∧ pk ∈ constraint_column_usage db
              ∧ ReferentialConstraints.constraint_catalog rc
                  = KeyColumnUsage.constraint_catalog fk
              ∧ ReferentialConstraints.constraint_schema rc
                  = KeyColumnUsage.constraint_schema fk
              ∧ ReferentialConstraints.constraint_name rc
                  = KeyColumnUsage.constraint_name fk
              ∧ ReferentialConstraints.unique_constraint_catalog rc
                  = ConstraintColumnUsage.constraint_catalog pk
              ∧ ReferentialConstraints.unique_constraint_schema rc
                  = ConstraintColumnUsage.constraint_schema pk
              ∧ ReferentialConstraints.unique_constraint_name rc
                  = ConstraintColumnUsage.constraint_name pk
              ∧ (KeyColumnUsage.table_schema fk ∉ ["pg_catalog"; "information_schema"])
              ∧ r = ForeignKeyRow.mk (KeyColumnUsage.table_schema fk)
                      (KeyColumnUsage.table_name fk) (KeyColumnUsage.column_name fk)
                      (KeyColumnUsage.ordinal_position fk)
                      (ReferentialConstraints.constraint_name rc)
                      (ConstraintColumnUsage.table_schema pk)
                      (ConstraintColumnUsage.table_name pk)
                      (ConstraintColumnUsage.column_name pk)).
Proof.
  split.
  - intros r. unfold PRIMARY_KEYS_QUERY.
    rewrite elem_of_sort_by, list_elem_of_fmap. split.
    + intros ([tc kcu] & -> & Hj). apply list_elem_of_filter in Hj as [[Hty Hsch] Hj].
      apply elem_of_join in Hj as (Htc & Hkcu & Hname & Hschema). simpl in *.
      exists tc, kcu. done.
    + intros (tc & kcu & Htc & Hkcu & Hname & Hschema & Hty & Hsch & ->).
      exists (tc, kcu). split; [done|]. apply list_elem_of_filter. split; [done|].
      apply elem_of_join. done.
  - intros r. unfold FOREIGN_KEYS_QUERY.
    rewrite elem_of_sort_by, list_elem_of_fmap. split.
    + intros ([[rc fk] pk] & -> & Hj). apply list_elem_of_filter in Hj as [Hsch Hj].
      apply elem_of_join in Hj as (Hj & Hpk & Hu1 & Hu2 & Hu3).
      apply elem_of_join in Hj as (Hrc & Hfk & Hc1 & Hc2 & Hc3). simpl in *.
      exists rc, fk, pk. done.
    + intros (rc & fk & pk & Hrc & Hfk & Hpk & Hc1 & Hc2 & Hc3 & Hu1 & Hu2 & Hu3
              & Hsch & ->).
      exists (rc, fk, pk). split; [done|]. apply list_elem_of_filter. split; [done|].
      apply elem_of_join. split; [|done]. apply elem_of_join. done.
Qed.

End returned_rows.

(** ** From the sync to the file *)

(** X25. After a sync that goes through, the file read back holds, under
    every key of the DDL mapping other than ["__proto__"], the JSON of the
    entry made of that key's DDL, the text of the key before its first ["."]
    and the key's kind ("table" when the kind mapping has none), and holds
    nothing under any other key. *)
Theorem sync_then_read_entries
    (buildSchemaDdl : PgSchema.SchemaData → DdlBuilder.SchemaDdl)
    (a : SyncSchema.Attempt) (w : SyncSchema.World) (client : PgSchema.Client)
    (data : PgSchema.SchemaData) :
  SyncSchema.config a = Js.Ok () →
  SyncSchema.connect a = Js.Ok client →
  SyncSchema.cancelled a SyncSchema.AfterConnect = false →
  PgSchema.fetchSchemaData client = Js.Ok data →
  SyncSchema.cancelled a SyncSchema.AfterFetch = false →
  SyncSchema.write_failure a = None →
  ∃ read tprops,
    Cache.readSchemaCache (SyncSchema.cacheFile (SyncSchema.sync buildSchemaDdl a w).2)
      = Js.Ok (Some read)
    ∧ Json.get read "tables" = Js.Ok (Some (Json.Object tprops))
    ∧ ∀ key,
        Json.lookup_prop key tprops
          = if decide (key = "__proto__") then None
            else (λ ddl, Cache.entry_json
                           (SyncSchema.cache_entry
                              (DdlBuilder.tableTypes (buildSchemaDdl data)) key ddl))
                   <$> DdlBuilder.tableDdls (buildSchemaDdl data) !! key.
Proof.
  intros Hconfig Hconnect Hc1 Hfetch Hc2 Hwrite.
  set (tables := SyncSchema.cache_tables (DdlBuilder.tableDdls (buildSchemaDdl data))
                   (DdlBuilder.tableTypes (buildSchemaDdl data))).
  exists (Cache.cache_json {| Cache.tables := tables; Cache.enums := None |}),
    (map_to_list (Cache.entry_json <$> tables)).
  split; [|split; [done|]].
  - unfold SyncSchema.sync, SyncSchema.task_bind, SyncSchema.try_finally,
      SyncSchema.try_catch, SyncSchema.await, SyncSchema.writeSchemaCache,
      Cache.writeSchemaCache.
    rewrite Hconfig, Hconnect, Hc1, Hfetch, Hc2, Hwrite.
    destruct (SyncSchema.cancelled a SyncSchema.AfterWrite), (SyncSchema.end_failure a);
      reflexivity.
  - intros key. rewrite lookup_prop_map_to_list, lookup_fmap.
    unfold tables. rewrite cache_tables_lookup_eq.
    destruct (decide (key = "__proto__")); [done|].
    by destruct (DdlBuilder.tableDdls (buildSchemaDdl data) !! key).
Qed.

Lemma sync_then_read_entries_witness :
  PgSchema.fetchSchemaData Fixtures.shop_client
    = Js.Ok (Fixtures.snapshot_of Fixtures.shop_db)
  ∧ ∃ read,
      Cache.readSchemaCache
        (SyncSchema.cacheFile
           (SyncSchema.sync DdlBuilder.buildSchemaDdl Fixtures.shop_attempt
              Fixtures.loading_world).2) = Js.Ok (Some read).
Proof.
  split; [reflexivity|].
  destruct (sync_then_read_entries DdlBuilder.buildSchemaDdl Fixtures.shop_attempt
              Fixtures.loading_world Fixtures.shop_client
              (Fixtures.snapshot_of Fixtures.shop_db)
              eq_refl eq_refl eq_refl eq_refl eq_refl eq_refl)
    as (read & _ & Hread & _).
  by exists read.
Defined.

Lemma fetchSchemaData_rows_witness :
  PgSchema.fetchSchemaData Fixtures.shop_client
    = Js.Ok (Fixtures.snapshot_of Fixtures.shop_db)
  ∧ (TableRow.mk "pg_catalog" "pg_class" "BASE TABLE"
       ∉ PgSchema.tables (Fixtures.snapshot_of Fixtures.shop_db))
  ∧ (TableRow.mk "public" "remote_log" "FOREIGN"
       ∉ PgSchema.tables (Fixtures.snapshot_of Fixtures.shop_db)).
Proof.
  split; [reflexivity|].
  destruct (fetchSchemaData_rows Fixtures.shop_client _ eq_refl) as (Ht & _).
  split; intros Hin%Ht.
  - destruct Hin as (_ & Hschema & _). apply Hschema. left.
  - destruct Hin as (_ & _ & [[=]|[=]]).
Defined.

(** ** The further properties on the sample data *)

Lemma sync_success_witness :
  SyncSchema.config Fixtures.shop_attempt = Js.Ok ()
  ∧ SyncSchema.connect Fixtures.shop_attempt = Js.Ok Fixtures.shop_client
  ∧ PgSchema.fetchSchemaData Fixtures.shop_client
      = Js.Ok (Fixtures.snapshot_of Fixtures.shop_db)
  ∧ SyncSchema.state
      (SyncSchema.sync DdlBuilder.buildSchemaDdl Fixtures.shop_attempt
         Fixtures.loading_world).2 = SyncSchema.success
  ∧ SyncSchema.errorMessage
      (SyncSchema.sync DdlBuilder.buildSchemaDdl Fixtures.shop_attempt
         Fixtures.loading_world).2 = None.
Proof.
  split; [reflexivity|]. split; [reflexivity|]. split; [reflexivity|].
  destruct (sync_success DdlBuilder.buildSchemaDdl Fixtures.shop_attempt
              Fixtures.loading_world Fixtures.shop_client
              (Fixtures.snapshot_of Fixtures.shop_db) eq_refl eq_refl eq_refl
              (λ _ _, eq_refl) eq_refl) as (_ & Hstate & _ & Hmsg & _).
  split; [exact Hstate | exact Hmsg].
Defined.

Lemma sync_settles_witness :
  SyncSchema.config Samples.closed_attempt = Js.Ok ()
  ∧ SyncSchema.end_failure Samples.closed_attempt
      = Some (Js.ErrorObject "Connection terminated")
  ∧ (SyncSchema.sync DdlBuilder.buildSchemaDdl Samples.closed_attempt
       Fixtures.loading_world).1 = Js.Ok ().
Proof.
  split; [reflexivity|]. split; [reflexivity|].
  apply (sync_settles DdlBuilder.buildSchemaDdl Samples.closed_attempt
           Fixtures.loading_world eq_refl).
Defined.

Lemma sync_cancelled_witness :
  SyncSchema.config Samples.closed_attempt = Js.Ok ()
  ∧ SyncSchema.connect Samples.closed_attempt = Js.Ok Fixtures.shop_client
  ∧ SyncSchema.cancelled Samples.closed_attempt SyncSchema.AfterConnect = true
  ∧ (SyncSchema.sync DdlBuilder.buildSchemaDdl Samples.closed_attempt
       Fixtures.loading_world).2 = Fixtures.loading_world.
Proof.
  split; [reflexivity|]. split; [reflexivity|]. split; [reflexivity|].
  destruct (sync_cancelled DdlBuilder.buildSchemaDdl Samples.closed_attempt
              Fixtures.loading_world Fixtures.shop_client eq_refl eq_refl)
    as (Hclosed & _).
  exact (Hclosed eq_refl).
Defined.

Lemma two_databases_default_listed : Databases.default_listed Samples.two_databases.
Proof. intros i [= <-]. by left. Qed.

Lemma default_stays_listed_witness :
  Databases.default_listed Samples.two_databases
  ∧ Databases.default_listed (Databases.removeDatabase "db_1" Samples.two_databases)
  ∧ Databases.defaultId (Databases.removeDatabase "db_1" Samples.two_databases)
      = Some "db_2"
  ∧ is_Some (Databases.getDefaultDatabaseSync Samples.two_databases).
Proof.
  split; [apply two_databases_default_listed|].
  destruct (default_stays_listed Samples.two_databases two_databases_default_listed)
    as (_ & _ & Hremove & _ & Hdefault).
  split; [apply Hremove|]. split; [reflexivity|]. by apply Hdefault.
Defined.

Lemma rescanned_same_catalog (db : PgSchema.Catalog) :
  ScanOrder.same_catalog db (Samples.rescanned db).
Proof. split; simpl; by rewrite reverse_Permutation. Qed.

Lemma fetchSchemaData_scan_order_witness :
  ScanOrder.same_catalog Fixtures.shop_db (Samples.rescanned Fixtures.shop_db)
  ∧ PgSchema.INDEXES_QUERY Fixtures.shop_db
      ≡ₚ PgSchema.INDEXES_QUERY (Samples.rescanned Fixtures.shop_db)
  ∧ PgSchema.INDEXES_QUERY Fixtures.shop_db
      ≠ PgSchema.INDEXES_QUERY (Samples.rescanned Fixtures.shop_db).
Proof.
  split; [apply rescanned_same_catalog|].
  pose proof (fetchSchemaData_scan_order Fixtures.shop_client Samples.rescanned_client
                (rescanned_same_catalog Fixtures.shop_db) (λ _, eq_refl)) as H.
  split; [exact (proj2 (proj2 (proj2 (proj2 (proj2 (proj2 H))))))|].
  vm_compute. intros [=].
Defined.

Lemma tables_and_columns_scan_order_witness :
  ScanOrder.same_catalog Fixtures.shop_db (Samples.rescanned Fixtures.shop_db)
  ∧ PgSchema.COLUMNS_QUERY Fixtures.shop_db
      = PgSchema.COLUMNS_QUERY (Samples.rescanned Fixtures.shop_db).
Proof.
  split; [apply rescanned_same_catalog|].
  apply (tables_and_columns_scan_order Fixtures.shop_db (Samples.rescanned Fixtures.shop_db)
           (rescanned_same_catalog Fixtures.shop_db)).
  - apply (bool_decide_unpack _). vm_compute. exact I.
  - apply (bool_decide_unpack _). vm_compute. exact I.
Defined.
